(** * Negotiation service (index.py): a shallow embedding and its properties

    The Flask application keeps a dictionary of negotiations, accepts up to
    five messages from each of two speakers and, when the tenth message
    arrives, asks a language model for a verdict which it extracts from
    free text.  Below, Python objects are values of [pyval], Python strings
    are lists of code points, the dictionary [negotiations] is a [gmap], and
    whatever the program does not decide itself (the uuid drawn, the reply
    of the HTTP service, [ast.literal_eval], the nesting the interpreter
    allows) is read from an [env] record. *)

From Stdlib Require Import ZArith NArith List Ascii String Bool Lia.
From Stdlib Require Import SpecFloat DecimalString.
From stdpp Require Import base option list gmap.

#[local] Set Warnings "-register-all".
Local Open Scope N_scope.

(** ** Strings *)

(** A Python [str] is a sequence of code points. *)
Abbreviation str := (list N).

(** The code points of an ASCII literal of the source. *)
Definition lit (s : string) : str := map N_of_ascii (list_ascii_of_string s).

Definition c_tab : N := 9.
Definition c_lf : N := 10.
Definition c_cr : N := 13.
Definition c_space : N := 32.
Definition c_quote : N := 34.
Definition c_plus : N := 43.
Definition c_comma : N := 44.
Definition c_minus : N := 45.
Definition c_dot : N := 46.
Definition c_slash : N := 47.
Definition c_zero : N := 48.
Definition c_colon : N := 58.
Definition c_lbracket : N := 91.
Definition c_backslash : N := 92.
Definition c_rbracket : N := 93.
Definition c_backtick : N := 96.
Definition c_lbrace : N := 123.
Definition c_rbrace : N := 125.

Fixpoint str_eqb (a b : str) : bool :=
  match a, b with
  | [], [] => true
  | x :: a', y :: b' => (x =? y) && str_eqb a' b'
  | _, _ => false
  end.

(** [starts_with p s]: [s.startswith(p)]. *)
Fixpoint starts_with (p s : str) : bool :=
  match p, s with
  | [], _ => true
  | x :: p', y :: s' => (x =? y) && starts_with p' s'
  | _ :: _, [] => false
  end.

(** [contains p s]: [p in s] for two strings. *)
Fixpoint contains (p s : str) : bool :=
  starts_with p s || match s with [] => false | _ :: s' => contains p s' end.

(** [str(n)] for an integer. *)
Definition decimal (z : Z) : str :=
  lit (NilZero.string_of_int (Z.to_int z)).

(** ** Python objects *)

(** The objects the program can meet: what a JSON body decodes to, and
    besides those what [ast.literal_eval] can return.  Dictionaries have
    string keys (they come from JSON), floats are binary64 values. *)
Inductive pyval :=
| PNone
| PEllipsis
| PBool (b : bool)
| PInt (z : Z)
| PFloat (f : spec_float)
| PComplex (re im : spec_float)
| PStr (s : str)
| PBytes (b : list N)
| PTuple (l : list pyval)
| PList (l : list pyval)
| PSet (l : list pyval)
| PDict (d : list (str * pyval)).

Definition float_nonzero (f : spec_float) : bool :=
  match f with S754_zero _ => false | _ => true end.

Definition nonempty {A} (l : list A) : bool :=
  match l with [] => false | _ => true end.

(** Truth value of an object, as [not x] and [if x] test it. *)
Definition truthy (v : pyval) : bool :=
  match v with
  | PNone => false
  | PEllipsis => true
  | PBool b => b
  | PInt z => negb (z =? 0)%Z
  | PFloat f => float_nonzero f
  | PComplex re im => float_nonzero re || float_nonzero im
  | PStr s => nonempty s
  | PBytes b => nonempty b
  | PTuple l | PList l | PSet l => nonempty l
  | PDict d => nonempty d
  end.

(** [type(v).__name__]. *)
Definition type_name (v : pyval) : str :=
  match v with
  | PNone => lit "NoneType"
  | PEllipsis => lit "ellipsis"
  | PBool _ => lit "bool"
  | PInt _ => lit "int"
  | PFloat _ => lit "float"
  | PComplex _ _ => lit "complex"
  | PStr _ => lit "str"
  | PBytes _ => lit "bytes"
  | PTuple _ => lit "tuple"
  | PList _ => lit "list"
  | PSet _ => lit "set"
  | PDict _ => lit "dict"
  end.

(** ** Exceptions *)

Inductive exn_class :=
| JSONDecodeError | ValueError | TypeError | AttributeError | KeyError
| IndexError | RecursionError | SyntaxError | OtherException.

(** An exception: its class and [str(e)]. *)
Record exn := Exn { exn_cls : exn_class; exn_str : str }.

Inductive result (A : Type) :=
| Ok (a : A)
| Raise (e : exn).
Arguments Ok {A} a.
Arguments Raise {A} e.

(** Sequencing: an exception raised by the first step ends the block. *)
#[global] Instance result_bind : MBind result := fun A B k r =>
  match r with Ok a => k a | Raise e => Raise e end.
#[global] Instance result_fmap : FMap result := fun A B f r =>
  match r with Ok a => Ok (f a) | Raise e => Raise e end.

(** [try: body  except Exception: handler]. *)
Definition try_except {A} (body : result A) (handler : exn -> A) : A :=
  match body with Ok a => a | Raise e => handler e end.

Definition is_json_decode_error (e : exn) : bool :=
  match exn_cls e with JSONDecodeError => true | _ => false end.

Definition json_error (msg : string) : exn := Exn JSONDecodeError (lit msg).

(** ** Dictionaries *)

Fixpoint dict_get (k : str) (d : list (str * pyval)) : option pyval :=
  match d with
  | [] => None
  | (k', v) :: d' => if str_eqb k k' then Some v else dict_get k d'
  end.

(** [d[k] = v]: an existing key keeps its place. *)
Fixpoint dict_set (k : str) (v : pyval) (d : list (str * pyval)) : list (str * pyval) :=
  match d with
  | [] => [(k, v)]
  | (k', v') :: d' => if str_eqb k k' then (k', v) :: d' else (k', v') :: dict_set k v d'
  end.

(** [dict(pairs)]: later pairs overwrite earlier ones. *)
Definition dict_of_pairs (pairs : list (str * pyval)) : list (str * pyval) :=
  fold_left (fun d kv => dict_set (fst kv) (snd kv) d) pairs [].

(** ** [json.loads]

    The decoder of the standard library (its C scanner, strict mode): the
    program runs it on the brace span of the model's answer and on a string
    that [ast.literal_eval] returned. *)

Definition is_digit (c : N) : bool := (48 <=? c) && (c <=? 57).

Definition is_json_ws (c : N) : bool :=
  (c =? c_space) || (c =? c_tab) || (c =? c_lf) || (c =? c_cr).

Fixpoint skip_ws (s : str) : str :=
  match s with
  | c :: r => if is_json_ws c then skip_ws r else s
  | [] => []
  end.

Definition hex_value (c : N) : option N :=
  if (48 <=? c) && (c <=? 57) then Some (c - 48)
  else if (97 <=? c) && (c <=? 102) then Some (c - 87)
  else if (65 <=? c) && (c <=? 70) then Some (c - 55)
  else None.

Definition hex4 (a b c d : N) : option N :=
  match hex_value a, hex_value b, hex_value c, hex_value d with
  | Some x, Some y, Some z, Some w => Some (((x * 16 + y) * 16 + z) * 16 + w)
  | _, _, _, _ => None
  end.

Definition is_high_surrogate (c : N) : bool := (55296 <=? c) && (c <=? 56319).
Definition is_low_surrogate (c : N) : bool := (56320 <=? c) && (c <=? 57343).

(** The low surrogate escape that may follow a high one. *)
Definition low_surrogate_escape (s : str) : option (N * str) :=
  match s with
  | b :: u :: a1 :: a2 :: a3 :: a4 :: r =>
      if (b =? c_backslash) && (u =? 117) then
        match hex4 a1 a2 a3 a4 with
        | Some c2 => if is_low_surrogate c2 then Some (c2, r) else None
        | None => None
        end
      else None
  | _ => None
  end.

Definition simple_escape (c : N) : option N :=
  if c =? c_quote then Some c_quote
  else if c =? c_backslash then Some c_backslash
  else if c =? c_slash then Some c_slash
  else if c =? 98 then Some 8
  else if c =? 102 then Some 12
  else if c =? 110 then Some c_lf
  else if c =? 114 then Some c_cr
  else if c =? 116 then Some c_tab
  else None.

(** [scanstring]: the text after an opening quote, up to the closing one. *)
Fixpoint scanstring (s : str) : result (str * str) :=
  match s with
  | [] => Raise (json_error "Unterminated string starting at")
  | c :: r =>
      if c =? c_quote then Ok ([], r)
      else if c =? c_backslash then
        match r with
        | [] => Raise (json_error "Unterminated string starting at")
        | e :: r1 =>
            if e =? 117 then
              match r1 with
              | a1 :: a2 :: a3 :: a4 :: r2 =>
                  match hex4 a1 a2 a3 a4 with
                  | None => Raise (json_error "Invalid \uXXXX escape")
                  | Some u =>
                      match (if is_high_surrogate u then low_surrogate_escape r2 else None),
                            r2 with
                      | Some (u2, _), _ :: _ :: _ :: _ :: _ :: _ :: r3 =>
                          '(t, rest) ← scanstring r3;
                          Ok ((65536 + (N.lor (N.shiftl (u - 55296) 10) (u2 - 56320))) :: t, rest)
                      | _, _ =>
                          '(t, rest) ← scanstring r2; Ok (u :: t, rest)
                      end
                  end
              | _ => Raise (json_error "Invalid \uXXXX escape")
              end
            else
              match simple_escape e with
              | Some x => '(t, rest) ← scanstring r1; Ok (x :: t, rest)
              | None => Raise (json_error "Invalid \escape")
              end
        end
      else if c <=? 31 then Raise (json_error "Invalid control character at")
      else '(t, rest) ← scanstring r; Ok (c :: t, rest)
  end.

Fixpoint span_digits (s : str) : str * str :=
  match s with
  | c :: r => if is_digit c then let '(ds, rest) := span_digits r in (c :: ds, rest)
              else ([], s)
  | [] => ([], [])
  end.

Definition digits_value (ds : str) : Z :=
  fold_left (fun acc c => (acc * 10 + Z.of_N (c - 48))%Z) ds 0%Z.

(** [float(text)] for the decimal [m * 10^e]: round to nearest even in
    binary64. *)
Definition float_of_decimal (neg : bool) (m e : Z) : spec_float :=
  if (m =? 0)%Z then S754_zero neg
  else if (0 <=? e)%Z then binary_round 53 1024 neg (Z.to_pos (m * 10 ^ e)) 0
  else
    let d := (10 ^ (- e))%Z in
    let num := (m * 2 ^ 1076)%Z in
    let q := (num / d)%Z in
    let r := (num mod d)%Z in
    let loc := if (r =? 0)%Z then loc_Exact else loc_Inexact (2 * r ?= d)%Z in
    binary_round_aux 53 1024 neg q (-1076) loc.

(** [sys.int_info.default_max_str_digits]. *)
Definition int_max_str_digits : nat := 4300.

Definition int_of_digits (neg : bool) (ds : str) : result pyval :=
  if Nat.ltb int_max_str_digits (length ds) then
    Raise (Exn ValueError
      (lit "Exceeds the limit (4300 digits) for integer string conversion: value has "
       ++ decimal (Z.of_nat (length ds))
       ++ lit " digits; use sys.set_int_max_str_digits() to increase the limit"))
  else Ok (PInt (if neg then - digits_value ds else digits_value ds)%Z).

(** The fraction of a number: a dot and at least one digit. *)
Definition scan_frac (s : str) : option (str * str) :=
  match s with
  | dot :: d :: r =>
      if (dot =? c_dot) && is_digit d then Some (span_digits (d :: r)) else None
  | _ => None
  end.

(** The exponent of a number: [e] or [E], a sign if any, at least one digit. *)
Definition scan_exp (s : str) : option (Z * str) :=
  match s with
  | e :: r =>
      if (e =? 101) || (e =? 69) then
        let '(neg, r1) :=
          match r with
          | sg :: r' => if sg =? c_minus then (true, r')
                        else if sg =? c_plus then (false, r') else (false, r)
          | [] => (false, r)
          end in
        match span_digits r1 with
        | ([], _) => None
        | (ds, rest) => Some ((if neg then - digits_value ds else digits_value ds)%Z, rest)
        end
      else None
  | [] => None
  end.

(** [_match_number]: [None] when no number starts here. *)
Definition scan_number (s : str) : option (result pyval * str) :=
  let '(neg, s1) :=
    match s with
    | c :: r => if c =? c_minus then (true, r) else (false, s)
    | [] => (false, s)
    end in
  let int_part :=
    match s1 with
    | c :: r =>
        if (49 <=? c) && (c <=? 57) then
          let '(ds, rest) := span_digits r in Some (c :: ds, rest)
        else if c =? c_zero then Some ([c], r)
        else None
    | [] => None
    end in
  match int_part with
  | None => None
  | Some (ip, r1) =>
      let '(fp, r2, has_frac) :=
        match scan_frac r1 with
        | Some (fs, rest) => (fs, rest, true)
        | None => ([], r1, false)
        end in
      let '(ex, r3, has_exp) :=
        match scan_exp r2 with
        | Some (x, rest) => (x, rest, true)
        | None => (0%Z, r2, false)
        end in
      if has_frac || has_exp then
        Some (Ok (PFloat (float_of_decimal neg (digits_value (ip ++ fp))
                            (ex - Z.of_nat (length fp)))), r3)
      else Some (int_of_digits neg ip, r3)
  end.

Definition recursion_error (what : string) : exn :=
  Exn RecursionError
    (lit "maximum recursion depth exceeded while decoding a JSON " ++ lit what
     ++ lit " from a unicode string").

Definition expecting_value : exn := json_error "Expecting value".

(** [scan_once]: one JSON value at the head of [s]; what follows it is
    returned.  [depth] is the number of nested containers the interpreter
    still allows; [fuel] bounds the calls and is taken from the length of the
    text (two calls at most are made for one character). *)
Fixpoint scan_once (fuel depth : nat) (s : str) {struct fuel} : result (pyval * str) :=
  match fuel with
  | O => Raise expecting_value
  | S fuel' =>
      match s with
      | [] => Raise expecting_value
      | c :: r =>
          if c =? c_quote then '(t, rest) ← scanstring r; Ok (PStr t, rest)
          else if c =? c_lbrace then
            match depth with
            | O => Raise (recursion_error "object")
            | S depth' =>
                match skip_ws r with
                | c1 :: r1 =>
                    if c1 =? c_rbrace then Ok (PDict [], r1)
                    else scan_pairs fuel' depth' (c1 :: r1) []
                | [] => Raise (json_error "Expecting property name enclosed in double quotes")
                end
            end
          else if c =? c_lbracket then
            match depth with
            | O => Raise (recursion_error "array")
            | S depth' =>
                match skip_ws r with
                | c1 :: r1 =>
                    if c1 =? c_rbracket then Ok (PList [], r1)
                    else scan_items fuel' depth' (c1 :: r1) []
                | [] => Raise expecting_value
                end
            end
          else if starts_with (lit "null") s then Ok (PNone, drop 4 s)
          else if starts_with (lit "true") s then Ok (PBool true, drop 4 s)
          else if starts_with (lit "false") s then Ok (PBool false, drop 5 s)
          else if starts_with (lit "NaN") s then Ok (PFloat S754_nan, drop 3 s)
          else if starts_with (lit "Infinity") s then Ok (PFloat (S754_infinity false), drop 8 s)
          else if starts_with (lit "-Infinity") s then Ok (PFloat (S754_infinity true), drop 9 s)
          else
            match scan_number s with
            | Some (v, rest) => x ← v; Ok (x, rest)
            | None => Raise expecting_value
            end
      end
  end

(** The pairs of an object, from a key on; [acc] holds the pairs read. *)
with scan_pairs (fuel depth : nat) (s : str) (acc : list (str * pyval)) {struct fuel}
  : result (pyval * str) :=
  match fuel with
  | O => Raise expecting_value
  | S fuel' =>
      match s with
      | c :: r =>
          if c =? c_quote then
            '(k, r1) ← scanstring r;
            match skip_ws r1 with
            | c2 :: r2 =>
                if c2 =? c_colon then
                  '(v, r3) ← scan_once fuel' depth (skip_ws r2);
                  match skip_ws r3 with
                  | c4 :: r4 =>
                      if c4 =? c_rbrace then Ok (PDict (dict_of_pairs (acc ++ [(k, v)])), r4)
                      else if c4 =? c_comma then
                        scan_pairs fuel' depth (skip_ws r4) (acc ++ [(k, v)])
                      else Raise (json_error "Expecting ',' delimiter")
                  | [] => Raise (json_error "Expecting ',' delimiter")
                  end
                else Raise (json_error "Expecting ':' delimiter")
            | [] => Raise (json_error "Expecting ':' delimiter")
            end
          else Raise (json_error "Expecting property name enclosed in double quotes")
      | [] => Raise (json_error "Expecting property name enclosed in double quotes")
      end
  end

(** The items of an array, from an item on. *)
with scan_items (fuel depth : nat) (s : str) (acc : list pyval) {struct fuel}
  : result (pyval * str) :=
  match fuel with
  | O => Raise expecting_value
  | S fuel' =>
      '(v, r1) ← scan_once fuel' depth s;
      match skip_ws r1 with
      | c2 :: r2 =>
          if c2 =? c_rbracket then Ok (PList (acc ++ [v]), r2)
          else if c2 =? c_comma then scan_items fuel' depth (skip_ws r2) (acc ++ [v])
          else Raise (json_error "Expecting ',' delimiter")
      | [] => Raise (json_error "Expecting ',' delimiter")
      end
  end.

(** [json.loads(s)] for a string [s], under a nesting allowance. *)
Definition json_loads (depth : nat) (s : str) : result pyval :=
  if starts_with [65279] s then Raise (json_error "Unexpected UTF-8 BOM (decode using utf-8-sig)")
  else
    '(v, rest) ← scan_once (S (2 * length s)) depth (skip_ws s);
    match skip_ws rest with
    | [] => Ok v
    | _ :: _ => Raise (json_error "Extra data")
    end.

(** ** Operations of the interpreter on objects *)

Definition type_error (msg : str) : exn := Exn TypeError msg.

Definition not_subscriptable (v : pyval) : exn :=
  type_error (lit "'" ++ type_name v ++ lit "' object is not subscriptable").

(** [v[k]] for a string key [k]. *)
Definition getitem_str (v : pyval) (k : str) : result pyval :=
  match v with
  | PDict d =>
      match dict_get k d with
      | Some x => Ok x
      | None => Raise (Exn KeyError (lit "'" ++ k ++ lit "'"))
      end
  | PList _ => Raise (type_error (lit "list indices must be integers or slices, not str"))
  | PTuple _ => Raise (type_error (lit "tuple indices must be integers or slices, not str"))
  | PStr _ => Raise (type_error (lit "string indices must be integers, not 'str'"))
  | PBytes _ => Raise (type_error (lit "byte indices must be integers or slices, not str"))
  | _ => Raise (not_subscriptable v)
  end.

(** [v[0]]. *)
Definition getitem_0 (v : pyval) : result pyval :=
  match v with
  | PList (x :: _) => Ok x
  | PList [] => Raise (Exn IndexError (lit "list index out of range"))
  | PTuple (x :: _) => Ok x
  | PTuple [] => Raise (Exn IndexError (lit "tuple index out of range"))
  | PStr (c :: _) => Ok (PStr [c])
  | PStr [] => Raise (Exn IndexError (lit "string index out of range"))
  | PBytes (c :: _) => Ok (PInt (Z.of_N c))
  | PBytes [] => Raise (Exn IndexError (lit "index out of range"))
  | PDict _ => Raise (Exn KeyError (lit "0"))
  | _ => Raise (not_subscriptable v)
  end.

Definition is_str (k : str) (v : pyval) : bool :=
  match v with PStr s => str_eqb s k | _ => false end.

(** [k in v] for a string [k]: a key of a dictionary, an element of a
    sequence, a substring of a string. *)
Definition contains_str (k : str) (v : pyval) : result bool :=
  match v with
  | PDict d => Ok (bool_decide (is_Some (dict_get k d)))
  | PList l | PTuple l | PSet l => Ok (existsb (is_str k) l)
  | PStr s => Ok (contains k s)
  | PBytes _ => Raise (type_error (lit "a bytes-like object is required, not 'str'"))
  | _ => Raise (type_error (lit "argument of type '" ++ type_name v ++ lit "' is not iterable"))
  end.

(** [v.get(k, default)]. *)
Definition get_method (v : pyval) (k : str) (dflt : pyval) : result pyval :=
  match v with
  | PDict d => Ok (default dflt (dict_get k d))
  | _ => Raise (Exn AttributeError
                  (lit "'" ++ type_name v ++ lit "' object has no attribute 'get'"))
  end.

(** [hash(v)] succeeds. *)
Fixpoint hashable (v : pyval) : bool :=
  match v with
  | PList _ | PSet _ | PDict _ => false
  | PTuple l => forallb hashable l
  | _ => true
  end.

(** The first unhashable object met when hashing [v]. *)
Fixpoint unhashable_part (v : pyval) : pyval :=
  match v with
  | PTuple l =>
      (fix first (l : list pyval) : pyval :=
         match l with
         | [] => v
         | x :: l' => if hashable x then first l' else unhashable_part x
         end) l
  | _ => v
  end.

(** ** The outside world *)

(** The body sent to the completion service. *)
Record payload := {
  model : str;
  chat : list (str * str);
  temperature : spec_float;
}.

(** What [requests.post] hands back when it returns: the status, the body
    as text, and what [response.json()] gives. *)
Record http_response := {
  status_code : Z;
  text : str;
  json : result pyval;
}.

(** What one request meets outside the program. *)
Record env := {
  (** [str(uuid.uuid4())] *)
  uuid4 : str;
  (** [requests.post(OPENROUTER_API_URL, headers=headers, json=payload)] *)
  requests_post : payload -> result http_response;
  (** [ast.literal_eval] *)
  literal_eval : str -> result pyval;
  (** containers the interpreter lets the JSON decoder nest *)
  json_depth : nat;
  (** [repr] of floats and of the objects a JSON body cannot hold *)
  repr : pyval -> str;
}.

(** What an f-string puts for [{v}]. *)
Definition format (e : env) (v : pyval) : str :=
  match v with
  | PStr s => s
  | PInt z => decimal z
  | PBool true => lit "True"
  | PBool false => lit "False"
  | PNone => lit "None"
  | _ => repr e v
  end.

(** ** [extract_json] *)

(** [re.sub(r"```(?:json)?", "", text)]; [skip] counts the characters of a
    fence still to drop. *)
Fixpoint sub_fences (skip : nat) (s : str) : str :=
  match s with
  | [] => []
  | c :: r =>
      match skip with
      | S k => sub_fences k r
      | O =>
          if starts_with (lit "```json") s then sub_fences 6 r
          else if starts_with (lit "```") s then sub_fences 2 r
          else c :: sub_fences 0 r
      end
  end.

(** [str.isspace] for one character. *)
Definition is_space (c : N) : bool :=
  ((9 <=? c) && (c <=? 13)) || ((28 <=? c) && (c <=? 32)) || (c =? 133) || (c =? 160)
  || (c =? 5760) || ((8192 <=? c) && (c <=? 8202)) || (c =? 8232) || (c =? 8233)
  || (c =? 8239) || (c =? 8287) || (c =? 12288).

Fixpoint lstrip (s : str) : str :=
  match s with
  | c :: r => if is_space c then lstrip r else s
  | [] => []
  end.

Fixpoint rstrip (s : str) : str :=
  match s with
  | [] => []
  | c :: r =>
      match rstrip r with
      | [] => if is_space c then [] else [c]
      | r' => c :: r'
      end
  end.

Definition strip (s : str) : str := rstrip (lstrip s).

Fixpoint from_first_lbrace (s : str) : option str :=
  match s with
  | [] => None
  | c :: r => if c =? c_lbrace then Some s else from_first_lbrace r
  end.

Fixpoint upto_last_rbrace (s : str) : option str :=
  match s with
  | [] => None
  | c :: r =>
      match upto_last_rbrace r with
      | Some p => Some (c :: p)
      | None => if c =? c_rbrace then Some [c] else None
      end
  end.

(** [re.search(r"\{.*\}", text, re.DOTALL)]: from the first opening brace
    to the last closing brace after it. *)
Definition search_braces (s : str) : option str :=
  match from_first_lbrace s with
  | Some (c :: r) =>
      match upto_last_rbrace r with
      | Some p => Some (c :: p)
      | None => None
      end
  | _ => None
  end.

(** [.replace('\n', ' ').replace('\r', '')] *)
Definition clean_newlines (s : str) : str :=
  filter (fun c => c ≠ c_cr) (map (fun c => if c =? c_lf then c_space else c) s).

Definition k_summary : str := lit "summary".
Definition k_compromise : str := lit "compromise".

Definition extract_error : pyval :=
  PDict [(k_summary, PStr (lit "Error parsing response."));
         (k_compromise, PStr (lit "Could not extract valid JSON from the model response."))].

Definition extract_json (e : env) (text : pyval) : pyval :=
  try_except
    (text1 ← match text with
             | PStr s => Ok (strip (sub_fences 0 s))
             | PBytes _ => Raise (type_error (lit "cannot use a string pattern on a bytes-like object"))
             | _ => Raise (type_error (lit "expected string or bytes-like object, got '"
                                       ++ type_name text ++ lit "'"))
             end;
     match search_braces text1 with
     | Some m => json_loads (json_depth e) (clean_newlines m)
     | None => literal_eval e text1
     end)
    (fun _ => extract_error).

(** ** [generate_verdict] *)

Record message := { speaker : str; message_text : pyval }.

Definition system_message : str := lit "
        You are a fair and impartial legal mediator. Analyze the following negotiation between two parties 
        and provide a balanced verdict that represents a fair compromise. Your response must be in valid JSON 
        format with two fields:
        1. 'summary': A brief summary of the negotiation and the key points of contention
        2. 'compromise': A detailed middle-ground solution that addresses the concerns of both parties, just a paragraph and nothing else, no other objects
        
        Respond only with the JSON object, no additional text or explanation.
        ".

(** [sep.join(l)] *)
Fixpoint join (sep : str) (l : list str) : str :=
  match l with
  | [] => []
  | x :: l' => match l' with [] => x | _ :: _ => x ++ sep ++ join sep l' end
  end.

Definition conversation_text (e : env) (messages : list message) : str :=
  join [c_lf] (map (fun m => speaker m ++ lit ": " ++ format e (message_text m)) messages).

Definition build_payload (e : env) (messages : list message) : payload :=
  {| model := lit "mistralai/mistral-7b-instruct:free";
     chat := [(lit "system", system_message);
              (lit "user", lit "Here is the negotiation conversation:" ++ [c_lf; c_lf]
                           ++ conversation_text e messages)];
     temperature := float_of_decimal false 3 (-1) |}.

Definition format_fallback : pyval :=
  PDict [(k_summary, PStr (lit "Failed to generate proper verdict format."));
         (k_compromise, PStr (lit "Please try again with clearer negotiation points."))].

Definition not_json_verdict : pyval :=
  PDict [(k_compromise, PStr (lit "The negotiation was processed, but a structured verdict could not be generated. Please try again."));
         (k_summary, PStr (lit "Error parsing AI response."))].

(** ["summary" not in verdict or "compromise" not in verdict] *)
Definition lacks_fields (verdict : pyval) : result bool :=
  match contains_str k_summary verdict with
  | Ok true => negb <$> contains_str k_compromise verdict
  | Ok false => Ok true
  | Raise ex => Raise ex
  end.

(** Lines 158 and 159: the object the answer decodes to. *)
Definition load_verdict (e : env) (response_content : pyval) : result pyval :=
  match extract_json e response_content with
  | PStr s => json_loads (json_depth e) s
  | json_text => Ok json_text
  end.

(** The inner [try] block: from the model's answer to the verdict. *)
Definition parse_verdict (e : env) (response_content : pyval) : result pyval :=
  let body :=
    verdict ← load_verdict e response_content;
    missing ← lacks_fields verdict;
    let verdict := if (missing : bool) then format_fallback else verdict in
    c ← get_method verdict k_compromise (PStr (lit "Compromise here"));
    s ← get_method verdict k_summary (PStr (lit "Summary here"));
    Ok (PDict [(k_compromise, c); (k_summary, s)]) in
  match body with
  | Raise ex => if is_json_decode_error ex then Ok not_json_verdict else Raise ex
  | Ok v => Ok v
  end.

(** [response.json()["choices"][0]["message"]["content"]] *)
Definition response_content (response : http_response) : result pyval :=
  response_data ← json response;
  choices ← getitem_str response_data (lit "choices");
  choice ← getitem_0 choices;
  msg ← getitem_str choice (lit "message");
  getitem_str msg (lit "content").

Definition api_failed (response : http_response) : pyval :=
  PDict [(k_summary, PStr (lit "API request failed."));
         (k_compromise, PStr (lit "Status code: " ++ decimal (status_code response)
                              ++ lit ". Error: " ++ text response))].

Definition verdict_error (ex : exn) : pyval :=
  PDict [(k_compromise, PStr (lit "An error occurred: " ++ exn_str ex));
         (k_summary, PStr (lit "Error generating verdict."))].

(** The verdict and the calls made to the completion service. *)
Definition generate_verdict (e : env) (messages : list message) : pyval * list payload :=
  let payload := build_payload e messages in
  (try_except
     (response ← requests_post e payload;
      if (status_code (response : http_response) =? 200)%Z then
        content ← response_content response;
        parse_verdict e content
      else Ok (api_failed response))
     verdict_error,
   [payload]).

(** ** The negotiations and the two routes *)

(** One entry of [negotiations]. *)
Record session := {
  messages : list message;
  user1_count : Z;
  user2_count : Z;
  total_count : Z;
}.

(** The dictionary [negotiations]; its keys are the ids drawn by [uuid4]. *)
Abbreviation store := (gmap str session).

Definition new_session : session :=
  {| messages := []; user1_count := 0; user2_count := 0; total_count := 0 |}.

(** What a route returns: the object given to [jsonify] and the status. *)
Record response := { body : pyval; status : Z }.

Definition k_error : str := lit "error".
Definition user1 : str := lit "user1".
Definition user2 : str := lit "user2".

Definition error (msg : str) (code : Z) : response :=
  {| body := PDict [(k_error, PStr msg)]; status := code |}.

Definition ok (fields : list (str * pyval)) : response :=
  {| body := PDict fields; status := 200 |}.

(** [data.get(k)] on the request body, a dictionary. *)
Definition field (k : str) (data : pyval) : pyval :=
  match data with PDict d => default PNone (dict_get k d) | _ => PNone end.

Definition is_dict (v : pyval) : bool :=
  match v with PDict _ => true | _ => false end.

(** [{"speaker": ..., "message": ...}] *)
Definition message_dict (m : message) : pyval :=
  PDict [(lit "speaker", PStr (speaker m)); (lit "message", message_text m)].

(** The message appended and the counters moved (lines 70 to 82); the
    speaker is ["user1"] or ["user2"] there. *)
Definition add_message (spk : str) (msg : pyval) (s : session) : session :=
  {| messages := messages s ++ [{| speaker := spk; message_text := msg |}];
     user1_count := if str_eqb spk user1 then user1_count s + 1 else user1_count s;
     user2_count := if str_eqb spk user1 then user2_count s else user2_count s + 1;
     total_count := total_count s + 1 |}%Z.

(** Lines 52 to 62: the negotiation the request is about.  Either the id
    and the dictionary to go on with, or the response that ends the
    request; hashing a list or a dictionary raises. *)
Definition open_negotiation (e : env) (negotiation_id : pyval) (negs : store)
  : result (str * store + response) :=
  if negb (truthy negotiation_id) then
    Ok (inl (uuid4 e, <[uuid4 e := new_session]> negs))
  else if negb (hashable negotiation_id) then
    Raise (type_error (lit "unhashable type: '"
                       ++ type_name (unhashable_part negotiation_id) ++ lit "'"))
  else
    match negotiation_id with
    | PStr id =>
        match negs !! id with
        | Some _ => Ok (inl (id, negs))
        | None => Ok (inr (error (lit "Negotiation with ID " ++ id ++ lit " not found") 404))
        end
    | _ => Ok (inr (error (lit "Negotiation with ID " ++ format e negotiation_id
                           ++ lit " not found") 404))
    end.

(** Lines 64 to 106: the quota of the speaker, the message appended, and
    the answer.  [spk] is ["user1"] or ["user2"] here, and [id] a key of
    [negs]. *)
Definition add_and_reply (e : env) (spk msg : pyval) (id : str) (negs : store)
  : response * store * list payload :=
  match negs !! id with
  | None => (* [negotiations[negotiation_id]] would raise KeyError *)
      (error (lit "'" ++ id ++ lit "'") 500, negs, [])
  | Some s =>
      if is_str user1 spk && (5 <=? user1_count s)%Z then
        (error (lit "User1 has already sent 5 messages") 400, negs, [])
      else if is_str user2 spk && (5 <=? user2_count s)%Z then
        (error (lit "User2 has already sent 5 messages") 400, negs, [])
      else
        let s' := add_message (if is_str user1 spk then user1 else user2) msg s in
        let negs' := <[id := s']> negs in
        if (total_count s' =? 10)%Z then
          let '(verdict, calls) := generate_verdict e (messages s') in
          (ok [(lit "negotiation_id", PStr id);
               (lit "status", PStr (lit "completed"));
               (lit "verdict", verdict)],
           negs', calls)
        else
          (ok [(lit "negotiation_id", PStr id);
               (lit "status", PStr (lit "in_progress"));
               (lit "messages_sent", PInt (total_count s'));
               (lit "user1_messages", PInt (user1_count s'));
               (lit "user2_messages", PInt (user2_count s'));
               (lit "messages_remaining", PInt (10 - total_count s'))],
           negs', [])
  end.

(** [POST /negotiate].  [request_json] is what [request.json] gives or
    raises; the result is the response, the dictionary afterwards and the
    calls made to the completion service. *)
Definition negotiate (e : env) (request_json : result pyval) (negs : store)
  : response * store * list payload :=
  match request_json with
  | Raise ex => (error (exn_str ex) 500, negs, [])
  | Ok data =>
      if negb (truthy data) || negb (is_dict data) then
        (error (lit "Invalid request format") 400, negs, [])
      else
        let negotiation_id := field (lit "negotiation_id") data in
        let spk := field (lit "speaker") data in
        let msg := field (lit "message") data in
        if negb (truthy spk) || negb (truthy msg) then
          (error (lit "Missing required fields: 'speaker' and 'message' are required") 400,
           negs, [])
        else if negb (is_str user1 spk || is_str user2 spk) then
          (error (lit "Speaker must be either 'user1' or 'user2'") 400, negs, [])
        else
          match open_negotiation e negotiation_id negs with
          | Raise ex => (error (exn_str ex) 500, negs, [])
          | Ok (inr resp) => (resp, negs, [])
          | Ok (inl (id, negs1)) => add_and_reply e spk msg id negs1
          end
  end.

(** [GET /negotiation/<negotiation_id>]. *)
Definition get_negotiation (e : env) (negotiation_id : str) (negs : store)
  : response * store * list payload :=
  match negs !! negotiation_id with
  | None => (error (lit "Negotiation not found") 404, negs, [])
  | Some negotiation =>
      let response_data :=
        [(lit "negotiation_id", PStr negotiation_id);
         (lit "status", PStr (if (total_count negotiation <? 10)%Z
                              then lit "in_progress" else lit "completed"));
         (lit "messages_sent", PInt (total_count negotiation));
         (lit "user1_messages", PInt (user1_count negotiation));
         (lit "user2_messages", PInt (user2_count negotiation));
         (lit "messages_remaining", PInt (Z.max 0 (10 - total_count negotiation)));
         (lit "messages", PList (map message_dict (messages negotiation)))] in
      if (total_count negotiation =? 10)%Z then
        let '(verdict, calls) := generate_verdict e (messages negotiation) in
        (ok (response_data ++ [(lit "verdict", verdict)]), negs, calls)
      else (ok response_data, negs, [])
  end.

(** What a client can send. *)
Inductive request :=
| Post (request_json : result pyval)
| Get (negotiation_id : str).

Definition handle (e : env) (r : request) (negs : store) : response * store * list payload :=
  match r with
  | Post j => negotiate e j negs
  | Get id => get_negotiation e id negs
  end.

(** ** A concrete outside world, for examples *)

(** The body [{"choices": [{"message": {"content": c}}]}] with status 200. *)
Definition completion (c : pyval) : http_response :=
  {| status_code := 200;
     text := [];
     json := Ok (PDict [(lit "choices",
                         PList [PDict [(lit "message", PDict [(lit "content", c)])]])]) |}.

Definition syntax_error : exn := Exn SyntaxError (lit "invalid syntax").

(** A world in which the service answers [reply] and [ast.literal_eval]
    rejects every text. *)
Definition world (id : str) (reply : result http_response) : env :=
  {| uuid4 := id;
     requests_post := fun _ => reply;
     literal_eval := fun _ => Raise syntax_error;
     json_depth := 900;
     repr := fun _ => [] |}.

Definition post_body (id : option str) (spk msg : str) : result pyval :=
  Ok (PDict (match id with Some i => [(lit "negotiation_id", PStr i)] | None => [] end
             ++ [(lit "speaker", PStr spk); (lit "message", PStr msg)])).

(** Requests served one after the other, each in its own world. *)
Fixpoint serve (rs : list (env * request)) (negs : store) : list response * store :=
  match rs with
  | [] => ([], negs)
  | (e, r) :: rs' =>
      let '(resp, negs1, _) := handle e r negs in
      let '(resps, negs2) := serve rs' negs1 in
      (resp :: resps, negs2)
  end.

Definition final (rs : list (env * request)) (negs : store) : store := (serve rs negs).2.

(** ** Notions the properties are stated with *)

(** The counters of a session agree with its transcript. *)
Definition session_ok (s : session) : Prop :=
  (user1_count s + user2_count s = Z.of_nat (length (messages s))
   ∧ total_count s = user1_count s + user2_count s
   ∧ 0 <= user1_count s <= 5 ∧ 0 <= user2_count s <= 5)%Z.

Definition store_ok (negs : store) : Prop :=
  ∀ id s, negs !! id = Some s → session_ok s.

(** The dictionaries the service can be in: the empty one at start, and
    what a request leaves. *)
Inductive reachable : store → Prop :=
| reachable_start : reachable ∅
| reachable_step e r negs : reachable negs → reachable (handle e r negs).1.2.

(** A session is completed when its total is 10: the test both routes use. *)
Definition completed (negs : store) (id : str) : bool :=
  match negs !! id with
  | Some s => (total_count s =? 10)%Z
  | None => false
  end.

(** The steps of a run at which session [id] becomes completed. *)
Fixpoint completions (id : str) (rs : list (env * request)) (negs : store) : nat :=
  match rs with
  | [] => 0
  | (e, r) :: rs' =>
      let negs' := (handle e r negs).1.2 in
      ((if negb (completed negs id) && completed negs' id then 1 else 0)
       + completions id rs' negs')%nat
  end.

(** [uuid4] never draws an id that is in use. *)
Fixpoint fresh_ids (rs : list (env * request)) (negs : store) : Prop :=
  match rs with
  | [] => True
  | (e, r) :: rs' => negs !! uuid4 e = None ∧ fresh_ids rs' (handle e r negs).1.2
  end.

(** The text of a string in a JSON document, without its quotes. *)
Definition hex_digit (n : N) : N := if n <? 10 then 48 + n else 87 + n.

Definition json_escape_char (c : N) : str :=
  if c =? c_quote then [c_backslash; c_quote]
  else if c =? c_backslash then [c_backslash; c_backslash]
  else if c <? 32 then
    [c_backslash; 117; c_zero; c_zero; hex_digit (c / 16); hex_digit (c mod 16)]
  else [c].

Definition json_escape (s : str) : str := concat (map json_escape_char s).

Definition quoted (s : str) : str := c_quote :: s ++ [c_quote].

(** The document [{"summary":"S","compromise":"C"}]. *)
Definition verdict_json (S C : str) : str :=
  c_lbrace :: quoted k_summary ++ c_colon :: quoted (json_escape S)
  ++ c_comma :: quoted k_compromise ++ c_colon :: quoted (json_escape C) ++ [c_rbrace].

Definition fence : str := lit "```".

(** A string value that is not empty. *)
Definition nonempty_str (v : pyval) : Prop := ∃ s, v = PStr s ∧ s ≠ [].

(** A session holding [n1] messages of user1 followed by [n2] of user2. *)
Definition session_with (n1 n2 : nat) : session :=
  {| messages := replicate n1 {| speaker := user1; message_text := PStr (lit "a") |}
                 ++ replicate n2 {| speaker := user2; message_text := PStr (lit "b") |};
     user1_count := Z.of_nat n1;
     user2_count := Z.of_nat n2;
     total_count := Z.of_nat (n1 + n2) |}.

(** The two answers of a POST that stores a message. *)
Definition completed_reply (id : str) (verdict : pyval) : response :=
  ok [(lit "negotiation_id", PStr id);
      (lit "status", PStr (lit "completed"));
      (lit "verdict", verdict)].

Definition in_progress_reply (id : str) (s : session) : response :=
  ok [(lit "negotiation_id", PStr id);
      (lit "status", PStr (lit "in_progress"));
      (lit "messages_sent", PInt (total_count s));
      (lit "user1_messages", PInt (user1_count s));
      (lit "user2_messages", PInt (user2_count s));
      (lit "messages_remaining", PInt (10 - total_count s))].

(** The counter the quota of speaker [u] is checked against. *)
Definition count_of (u : str) (s : session) : Z :=
  if str_eqb u user1 then user1_count s else user2_count s.

Definition quota_error (u : str) : response :=
  error (if str_eqb u user1 then lit "User1 has already sent 5 messages"
         else lit "User2 has already sent 5 messages") 400.

Definition missing_fields : response :=
  error (lit "Missing required fields: 'speaker' and 'message' are required") 400.

(** A session receives its tenth message between [negs] and [negs']. *)
Definition tenth_message (negs negs' : store) (id : str) : Prop :=
  ∃ s s' m, negs !! id = Some s ∧ length (messages s) = 9%nat
            ∧ negs' !! id = Some s' ∧ messages s' = messages s ++ [m]
            ∧ total_count s' = 10%Z.

(** A run for examples: a first message that opens session ["id-1"], nine
    more that alternate the speakers, an eleventh and a twelfth message, and
    a read.  The service answers with a fenced JSON verdict. *)
Definition fenced_verdict : pyval :=
  PStr (lit "Here is the verdict: ```json" ++ [c_lf]
        ++ verdict_json (lit "Both want the car.") (lit "Share it.")
        ++ [c_lf] ++ lit "```").

Definition opening : env * request :=
  (world (lit "id-1") (Ok (completion fenced_verdict)),
   Post (post_body None user1 (lit "offer A"))).

Definition following (u m : str) : env * request :=
  (world (lit "id-2") (Ok (completion fenced_verdict)),
   Post (post_body (Some (lit "id-1")) u m)).

Definition reading : env * request :=
  (world (lit "id-2") (Ok (completion fenced_verdict)), Get (lit "id-1")).

Definition ten_messages : list (env * request) :=
  opening ::
  [following user2 (lit "b1"); following user1 (lit "a2"); following user2 (lit "b2");
   following user1 (lit "a3"); following user2 (lit "b3"); following user1 (lit "a4");
   following user2 (lit "b4"); following user1 (lit "a5"); following user2 (lit "b5")].

Definition full_run : list (env * request) :=
  ten_messages ++ [following user1 (lit "a6"); following user2 (lit "b6"); reading].

(** The call to the completion service fails, and [v] is the verdict that
    reports it.  Either [requests.post] raised [ex]: the summary is "Error
    generating verdict." and the compromise ends with [str(ex)].  Or the
    reply [r] has a status other than 200: the summary is "API request
    failed." and the compromise gives the status code and the body of the
    reply. *)
Inductive oracle_fails (e : env) (msgs : list message) : pyval → Prop :=
| network_error ex :
    requests_post e (build_payload e msgs) = Raise ex →
    oracle_fails e msgs
      (PDict [(k_compromise, PStr (lit "An error occurred: " ++ exn_str ex));
              (k_summary, PStr (lit "Error generating verdict."))])
| non_success r :
    requests_post e (build_payload e msgs) = Ok r → status_code r ≠ 200%Z →
    oracle_fails e msgs
      (PDict [(k_summary, PStr (lit "API request failed."));
              (k_compromise, PStr (lit "Status code: " ++ decimal (status_code r)
                                   ++ lit ". Error: " ++ text r))]).

(** What a read shows of a session, the verdict apart. *)
Definition session_view (id : str) (s : session) : list (str * pyval) :=
  [(lit "negotiation_id", PStr id);
   (lit "status", PStr (if (total_count s <? 10)%Z then lit "in_progress" else lit "completed"));
   (lit "messages_sent", PInt (total_count s));
   (lit "user1_messages", PInt (user1_count s));
   (lit "user2_messages", PInt (user2_count s));
   (lit "messages_remaining", PInt (Z.max 0 (10 - total_count s)));
   (lit "messages", PList (map message_dict (messages s)))].

Definition connection_error : exn :=
  Exn OtherException (lit "HTTPSConnectionPool(host='openrouter.ai', port=443): Max retries exceeded").

Definition unauthorized : http_response :=
  {| status_code := 401; text := lit "No auth credentials found"; json := Raise syntax_error |}.

(** The verdict made of the two fields of [extract_error]. *)
Definition extract_error_verdict : pyval :=
  PDict [(k_compromise, PStr (lit "Could not extract valid JSON from the model response."));
         (k_summary, PStr (lit "Error parsing response."))].

(** The verdict made of the two fields of [format_fallback]. *)
Definition format_fallback_verdict : pyval :=
  PDict [(k_compromise, PStr (lit "Please try again with clearer negotiation points."));
         (k_summary, PStr (lit "Failed to generate proper verdict format."))].

(** The answer cannot be used, and [v] is the verdict given instead: the
    text has a brace span that [json.loads] rejects, or no brace span and
    [ast.literal_eval] rejects it; or the object decoded is a dictionary
    without one of the two fields. *)
Inductive unusable_answer (e : env) (content : pyval) : pyval → Prop :=
| span_rejected text m ex :
    content = PStr text →
    search_braces (strip (sub_fences 0 text)) = Some m →
    json_loads (json_depth e) (clean_newlines m) = Raise ex →
    unusable_answer e content extract_error_verdict
| literal_rejected text ex :
    content = PStr text →
    search_braces (strip (sub_fences 0 text)) = None →
    literal_eval e (strip (sub_fences 0 text)) = Raise ex →
    unusable_answer e content extract_error_verdict
| field_missing d :
    load_verdict e content = Ok (PDict d) →
    dict_get k_summary d = None ∨ dict_get k_compromise d = None →
    unusable_answer e content format_fallback_verdict.

(** [v] is a dictionary with the two fields of a verdict and nothing else. *)
Definition two_fields (v s c : pyval) : Prop :=
  v = PDict [(k_compromise, c); (k_summary, s)]
  ∨ v = PDict [(k_summary, s); (k_compromise, c)].

(** ** Notions for the properties of the routes *)

(** The messages of speaker [u] in a transcript. *)
Definition count_speaker (u : str) (msgs : list message) : Z :=
  Z.of_nat (length (filter (λ m, speaker m = u) msgs)).

(** A stored message: one of the two speakers, and a text that passed the
    test of line 46. *)
Definition message_ok (m : message) : Prop :=
  (speaker m = user1 ∨ speaker m = user2) ∧ truthy (message_text m) = true.

(** Each counter counts the messages of its speaker. *)
Definition session_sound (s : session) : Prop :=
  user1_count s = count_speaker user1 (messages s)
  ∧ user2_count s = count_speaker user2 (messages s)
  ∧ Forall message_ok (messages s).

(** A body of [POST /negotiate] with its three fields; [id] is any object. *)
Definition body_of (id spk msg : pyval) : pyval :=
  PDict [(lit "negotiation_id", id); (lit "speaker", spk); (lit "message", msg)].

(** The POST that sends message [m] to session [id]. *)
Definition post_to (id : str) (m : message) : request :=
  Post (Ok (body_of (PStr id) (PStr (speaker m)) (message_text m))).

(** The messages of [ems] posted to session [id] one after the other, each
    in its own world. *)
Definition posts_to (id : str) (ems : list (env * message)) : list (env * request) :=
  map (λ em, (em.1, post_to id em.2)) ems.

(** The answer to a message that is stored and is not the tenth, told from
    the transcript [msgs] it leaves. *)
Definition progress_of (id : str) (msgs : list message) : response :=
  ok [(lit "negotiation_id", PStr id);
      (lit "status", PStr (lit "in_progress"));
      (lit "messages_sent", PInt (Z.of_nat (length msgs)));
      (lit "user1_messages", PInt (count_speaker user1 msgs));
      (lit "user2_messages", PInt (count_speaker user2 msgs));
      (lit "messages_remaining", PInt (10 - Z.of_nat (length msgs)))].

(** * Properties *)

Arguments lit : simpl never.

Lemma str_eqb_eq (a b : str) : str_eqb a b = true ↔ a = b.
Proof.
  revert b; induction a as [|x a IH]; intros [|y b]; simpl; split; try done.
  - intros [Hxy Hab]%andb_prop. apply N.eqb_eq in Hxy. apply IH in Hab. congruence.
  - intros [= -> ->]. rewrite N.eqb_refl. simpl. by apply IH.
Qed.

Lemma is_str_true k v : is_str k v = true ↔ v = PStr k.
Proof.
  destruct v; simpl; try (split; [discriminate | by intros [=]]).
  rewrite str_eqb_eq. split; [by intros -> | by intros [=]].
Qed.

Lemma field_truthy_dict k d v : field k (PDict d) = v → truthy v = true → truthy (PDict d) = true.
Proof. destruct d; simpl; [by intros <- | done]. Qed.

Lemma negotiate_valid e d negs spk :
  field (lit "speaker") (PDict d) = PStr spk → spk = user1 ∨ spk = user2 →
  truthy (field (lit "message") (PDict d)) = true →
  negotiate e (Ok (PDict d)) negs
  = match open_negotiation e (field (lit "negotiation_id") (PDict d)) negs with
    | Raise ex => (error (exn_str ex) 500, negs, [])
    | Ok (inr resp) => (resp, negs, [])
    | Ok (inl (id, negs1)) =>
        add_and_reply e (PStr spk) (field (lit "message") (PDict d)) id negs1
    end.
Proof.
  intros Hspk Hu Hmsg. unfold negotiate. cbv zeta.
  assert (Hts : truthy (PStr spk) = true) by (by destruct Hu as [-> | ->]).
  assert (His : is_str user1 (PStr spk) || is_str user2 (PStr spk) = true)
    by (by destruct Hu as [-> | ->]).
  rewrite (field_truthy_dict _ _ _ Hspk Hts), Hspk, Hts, Hmsg, His. reflexivity.
Qed.

Lemma open_existing e id negs s :
  id ≠ [] → negs !! id = Some s →
  open_negotiation e (PStr id) negs = Ok (inl (id, negs)).
Proof.
  intros Hne Hs. unfold open_negotiation.
  replace (truthy (PStr id)) with true by (by destruct id).
  cbn [negb hashable]. by rewrite Hs.
Qed.

Lemma open_new e v negs :
  truthy v = false →
  open_negotiation e v negs = Ok (inl (uuid4 e, <[uuid4 e := new_session]> negs)).
Proof. intros Hv. unfold open_negotiation. by rewrite Hv. Qed.

Lemma add_and_reply_reject e u msg id negs s :
  negs !! id = Some s → u = user1 ∨ u = user2 → (5 <= count_of u s)%Z →
  add_and_reply e (PStr u) msg id negs = (quota_error u, negs, []).
Proof.
  intros Hs Hu Hq. unfold add_and_reply. rewrite Hs. apply Z.leb_le in Hq.
  destruct Hu as [-> | ->].
  - change (count_of user1 s) with (user1_count s) in Hq.
    change (is_str user1 (PStr user1)) with true. by rewrite Hq.
  - change (count_of user2 s) with (user2_count s) in Hq.
    change (is_str user1 (PStr user2)) with false.
    change (is_str user2 (PStr user2)) with true. by rewrite Hq.
Qed.

Lemma add_and_reply_accept e u msg id negs s :
  negs !! id = Some s → u = user1 ∨ u = user2 → (count_of u s < 5)%Z →
  add_and_reply e (PStr u) msg id negs
  = let s' := add_message u msg s in
    if (total_count s' =? 10)%Z
    then (completed_reply id (generate_verdict e (messages s')).1,
          <[id := s']> negs, (generate_verdict e (messages s')).2)
    else (in_progress_reply id s', <[id := s']> negs, []).
Proof.
  intros Hs Hu Hq. unfold add_and_reply. rewrite Hs.
  assert (Hu' : (if is_str user1 (PStr u) then user1 else user2) = u)
    by (by destruct Hu as [-> | ->]).
  rewrite Hu'. apply Z.leb_gt in Hq. cbv zeta.
  destruct Hu as [-> | ->].
  - change (count_of user1 s) with (user1_count s) in Hq.
    change (is_str user1 (PStr user1)) with true.
    change (is_str user2 (PStr user1)) with false. rewrite Hq. cbn [andb].
    case_match; [by destruct (generate_verdict _ _) | done].
  - change (count_of user2 s) with (user2_count s) in Hq.
    change (is_str user1 (PStr user2)) with false.
    change (is_str user2 (PStr user2)) with true. rewrite Hq. cbn [andb].
    case_match; [by destruct (generate_verdict _ _) | done].
Qed.

(** What a POST can do: answer an error and leave the dictionary alone, or
    store one more message in a session that is new or was there, whose
    speaker is below the quota. *)
Lemma negotiate_inv e j negs :
  (∃ msg code, code ≠ 200%Z ∧ negotiate e j negs = (error msg code, negs, []))
  ∨ (∃ d u id s,
        j = Ok (PDict d)
        ∧ field (lit "speaker") (PDict d) = PStr u ∧ (u = user1 ∨ u = user2)
        ∧ truthy (field (lit "message") (PDict d)) = true
        ∧ ((truthy (field (lit "negotiation_id") (PDict d)) = false
            ∧ id = uuid4 e ∧ s = new_session)
           ∨ (field (lit "negotiation_id") (PDict d) = PStr id ∧ id ≠ []
              ∧ negs !! id = Some s))
        ∧ (count_of u s < 5)%Z
        ∧ negotiate e j negs
          = let s' := add_message u (field (lit "message") (PDict d)) s in
            if (total_count s' =? 10)%Z
            then (completed_reply id (generate_verdict e (messages s')).1,
                  <[id := s']> negs, (generate_verdict e (messages s')).2)
            else (in_progress_reply id s', <[id := s']> negs, [])).
Proof.
  destruct j as [data | ex]; [| left; eexists _, 500%Z; by split].
  destruct (truthy data) eqn:Htd; [| left; eexists _, 400%Z; split; [done|]; unfold negotiate; by rewrite Htd].
  destruct data as [| | | | | | | | | | | d];
    try (left; eexists _, 400%Z; split; [done|]; unfold negotiate; by rewrite Htd).
  destruct (truthy (field (lit "speaker") (PDict d))) eqn:Hts;
    [| left; eexists _, 400%Z; split; [done|]; unfold negotiate; by rewrite Htd, Hts].
  destruct (truthy (field (lit "message") (PDict d))) eqn:Htm;
    [| left; eexists _, 400%Z; split; [done|]; unfold negotiate; by rewrite Htd, Hts, Htm].
  destruct (is_str user1 (field (lit "speaker") (PDict d))
            || is_str user2 (field (lit "speaker") (PDict d))) eqn:Hu;
    [| left; eexists _, 400%Z; split; [done|]; unfold negotiate;
       by rewrite Htd, Hts, Htm, Hu].
  assert (∃ u, field (lit "speaker") (PDict d) = PStr u ∧ (u = user1 ∨ u = user2))
    as (u & Hspk & Hu').
  { apply orb_prop in Hu as [Hu | Hu]; apply is_str_true in Hu; eauto. }
  rewrite (negotiate_valid _ _ _ _ Hspk Hu' Htm).
  assert (Hquota : ∀ id s negs1,
    negs1 !! id = Some s →
    (∃ msg code, code ≠ 200%Z ∧
       add_and_reply e (PStr u) (field (lit "message") (PDict d)) id negs1
       = (error msg code, negs1, []))
    ∨ ((count_of u s < 5)%Z ∧
       add_and_reply e (PStr u) (field (lit "message") (PDict d)) id negs1
       = let s' := add_message u (field (lit "message") (PDict d)) s in
         if (total_count s' =? 10)%Z
         then (completed_reply id (generate_verdict e (messages s')).1,
               <[id := s']> negs1, (generate_verdict e (messages s')).2)
         else (in_progress_reply id s', <[id := s']> negs1, []))).
  { intros id s negs1 Hs. destruct (Z_lt_le_dec (count_of u s) 5) as [Hq | Hq].
    - right. split; [done|]. by apply add_and_reply_accept.
    - left. eexists _, 400%Z. split; [done|].
      by rewrite (add_and_reply_reject _ _ _ _ _ s). }
  destruct (truthy (field (lit "negotiation_id") (PDict d))) eqn:Htn.
  - unfold open_negotiation. rewrite Htn. cbn [negb].
    destruct (hashable _) eqn:Hh; cbn [negb]; [| left; eexists _, 500%Z; by split].
    destruct (field (lit "negotiation_id") (PDict d)) as [| | | | | | id | | | | |] eqn:Hn;
      try (left; eexists _, 404%Z; by split).
    destruct (negs !! id) as [s|] eqn:Hs; [| left; eexists _, 404%Z; by split].
    destruct (Hquota id s negs Hs) as [? | [Hq Heq]]; [by left|].
    right. exists d, u, id, s. repeat split; try done.
    right. repeat split; try done. by destruct id.
  - rewrite open_new by done.
    assert (Hq : (count_of u new_session < 5)%Z) by (by destruct Hu' as [-> | ->]).
    right. exists d, u, (uuid4 e), new_session. repeat split; try done.
    + by left.
    + rewrite (add_and_reply_accept _ _ _ _ _ new_session);
        [| apply lookup_insert_eq | done | done].
      cbv zeta. by rewrite !insert_insert_eq.
Qed.

(** C7. In an existing session where user1 already has five messages, a
    POST from user1 is answered 400 with the message "User1 has already
    sent 5 messages", and the dictionary of negotiations is left as it was. *)
Theorem sixth_message_of_user1_rejected e d negs id s :
  field (lit "negotiation_id") (PDict d) = PStr id → id ≠ [] →
  field (lit "speaker") (PDict d) = PStr user1 →
  truthy (field (lit "message") (PDict d)) = true →
  negs !! id = Some s →
  user1_count s = 5%Z →
  negotiate e (Ok (PDict d)) negs
  = (error (lit "User1 has already sent 5 messages") 400, negs, []).
Proof.
  intros Hid Hne Hspk Hmsg Hs H5.
  rewrite (negotiate_valid _ _ _ _ Hspk (or_introl eq_refl) Hmsg), Hid.
  rewrite (open_existing _ _ _ _ Hne Hs). unfold add_and_reply.
  rewrite Hs, H5. reflexivity.
Qed.

(** A body naming session ["id-1"], from user1, in a dictionary where
    that session holds five messages of user1 and two of user2. *)
Lemma sixth_message_of_user1_rejected_witness :
  negotiate (world (lit "id-2") (Raise syntax_error))
            (post_body (Some (lit "id-1")) user1 (lit "one more"))
            (<[lit "id-1" := session_with 5 2]> ∅)
  = (error (lit "User1 has already sent 5 messages") 400,
     <[lit "id-1" := session_with 5 2]> ∅, []).
Proof.
  apply (sixth_message_of_user1_rejected _ _ _ (lit "id-1") (session_with 5 2)).
  - reflexivity.
  - discriminate.
  - reflexivity.
  - reflexivity.
  - apply lookup_insert_eq.
  - reflexivity.
Defined.

(** C8. A POST without [negotiation_id], from "user1", with a message that
    is not empty, is answered 200 under the id [uuid4] drew, with status
    "in_progress", one message of user1 and nine messages remaining; the
    session stored under that id holds this one message. *)
Theorem first_message_opens_session e d negs m :
  dict_get (lit "negotiation_id") d = None →
  field (lit "speaker") (PDict d) = PStr user1 →
  field (lit "message") (PDict d) = PStr m → m ≠ [] →
  negotiate e (Ok (PDict d)) negs
  = (ok [(lit "negotiation_id", PStr (uuid4 e));
         (lit "status", PStr (lit "in_progress"));
         (lit "messages_sent", PInt 1);
         (lit "user1_messages", PInt 1);
         (lit "user2_messages", PInt 0);
         (lit "messages_remaining", PInt 9)],
     <[uuid4 e := {| messages := [{| speaker := user1; message_text := PStr m |}];
                     user1_count := 1; user2_count := 0; total_count := 1 |}]> negs,
     []).
Proof.
  intros Hid Hspk Hmsg Hm.
  assert (Ht : truthy (field (lit "message") (PDict d)) = true)
    by (rewrite Hmsg; by destruct m).
  rewrite (negotiate_valid _ _ _ _ Hspk (or_introl eq_refl) Ht).
  rewrite open_new by (unfold field; by rewrite Hid).
  unfold add_and_reply. rewrite lookup_insert_eq, insert_insert_eq, Hmsg. reflexivity.
Qed.

Lemma first_message_opens_session_witness :
  negotiate (world (lit "id-1") (Raise syntax_error))
            (post_body None user1 (lit "offer A")) ∅
  = (ok [(lit "negotiation_id", PStr (lit "id-1"));
         (lit "status", PStr (lit "in_progress"));
         (lit "messages_sent", PInt 1);
         (lit "user1_messages", PInt 1);
         (lit "user2_messages", PInt 0);
         (lit "messages_remaining", PInt 9)],
     <[lit "id-1" := {| messages := [{| speaker := user1;
                                        message_text := PStr (lit "offer A") |}];
                        user1_count := 1; user2_count := 0; total_count := 1 |}]> ∅,
     []).
Proof.
  apply (first_message_opens_session (world (lit "id-1") (Raise syntax_error))).
  - reflexivity.
  - reflexivity.
  - reflexivity.
  - discriminate.
Defined.

(** C10. A body whose [message] or [speaker] is the empty string is
    answered 400 with the missing-fields error and the dictionary of
    negotiations is left as it was; a body that is not empty and lacks one of
    the two fields gets the same answer. *)
Theorem empty_field_is_missing_field e d negs :
  dict_get (lit "message") d = Some (PStr []) ∨ dict_get (lit "speaker") d = Some (PStr [])
  ∨ (d ≠ [] ∧ (dict_get (lit "message") d = None ∨ dict_get (lit "speaker") d = None)) →
  negotiate e (Ok (PDict d)) negs = (missing_fields, negs, []).
Proof.
  intros H. unfold negotiate. cbv zeta.
  assert (Hd : truthy (PDict d) = true).
  { destruct d; [|done]. destruct H as [H | [H | [H _]]]; done. }
  rewrite Hd. cbn [negb orb is_dict].
  assert (Hf : negb (truthy (field (lit "speaker") (PDict d)))
               || negb (truthy (field (lit "message") (PDict d))) = true).
  { unfold field. destruct H as [H | [H | [_ [H | H]]]]; rewrite H;
      cbn [default truthy nonempty negb]; by rewrite ?orb_true_r. }
  by rewrite Hf.
Qed.

Lemma empty_field_is_missing_field_witness :
  negotiate (world (lit "id-1") (Raise syntax_error))
            (post_body None user1 []) ∅
  = (missing_fields, ∅, []).
Proof.
  apply (empty_field_is_missing_field (world (lit "id-1") (Raise syntax_error))).
  left. reflexivity.
Defined.

(** ** The counters and the transcript *)

Lemma session_ok_new : session_ok new_session.
Proof. unfold session_ok; cbn; lia. Qed.

Lemma session_ok_add u msg s :
  session_ok s → u = user1 ∨ u = user2 → (count_of u s < 5)%Z →
  session_ok (add_message u msg s).
Proof.
  intros (Hlen & Htot & H1 & H2) Hu Hq. unfold session_ok.
  destruct Hu as [-> | ->].
  - change (count_of user1 s) with (user1_count s) in Hq.
    cbn. change (str_eqb user1 user1) with true. cbv iota.
    rewrite length_app; cbn. lia.
  - change (count_of user2 s) with (user2_count s) in Hq.
    cbn. change (str_eqb user2 user1) with false. cbv iota.
    rewrite length_app; cbn. lia.
Qed.

(** The dictionary a request leaves: the old one, or the old one with one
    session replaced by itself plus a message. *)
Lemma handle_store e r negs :
  (handle e r negs).1.2 = negs
  ∨ ∃ id s u msg,
      (negs !! id = Some s ∨ (id = uuid4 e ∧ s = new_session))
      ∧ (u = user1 ∨ u = user2) ∧ (count_of u s < 5)%Z
      ∧ (handle e r negs).1.2 = <[id := add_message u msg s]> negs.
Proof.
  destruct r as [j | id]; cbn [handle].
  - destruct (negotiate_inv e j negs)
      as [(msg & code & _ & ->) | (d & u & id & s & _ & _ & Hu & _ & Hid & Hq & ->)];
      [by left|].
    right. exists id, s, u, (field (lit "message") (PDict d)).
    repeat split; try done.
    + destruct Hid as [(_ & -> & ->) | (_ & _ & Hs)]; [by right | by left].
    + cbv zeta. by case_match.
  - left. unfold get_negotiation. repeat case_match; simplify_eq; done.
Qed.

Lemma handle_store_ok e r negs : store_ok negs → store_ok (handle e r negs).1.2.
Proof.
  intros Hok. destruct (handle_store e r negs)
    as [-> | (id & s & u & msg & Hs & Hu & Hq & ->)]; [done|].
  intros id' s' Hs'. destruct (decide (id = id')) as [<- | Hne].
  - rewrite lookup_insert_eq in Hs'. injection Hs' as <-.
    apply session_ok_add; try done.
    destruct Hs as [Hs | [_ ->]]; [by eapply Hok | apply session_ok_new].
  - rewrite lookup_insert_ne in Hs' by done. by eapply Hok.
Qed.

Lemma reachable_store_ok negs : reachable negs → store_ok negs.
Proof.
  induction 1 as [| e r negs _ IH]; [| by apply handle_store_ok].
  intros id s Hs. by rewrite lookup_empty in Hs.
Qed.

(** C1. In every dictionary the service can reach, each session has as
    many messages as its two counters add up to, and neither counter
    exceeds 5. *)
Theorem counters_match_transcript negs id s :
  reachable negs → negs !! id = Some s →
  (user1_count s + user2_count s = Z.of_nat (length (messages s))
   ∧ user1_count s <= 5 ∧ user2_count s <= 5)%Z.
Proof.
  intros Hr Hs. destruct (reachable_store_ok negs Hr id s Hs) as (? & ? & ? & ?). lia.
Qed.

(** The dictionary after one first message. *)
Lemma counters_match_transcript_witness :
  (1 + 0 = Z.of_nat 1 ∧ 1 <= 5 ∧ 0 <= 5)%Z.
Proof.
  apply (counters_match_transcript
           (handle (world (lit "id-1") (Raise syntax_error))
                   (Post (post_body None user1 (lit "offer A"))) ∅).1.2
           (lit "id-1")
           {| messages := [{| speaker := user1; message_text := PStr (lit "offer A") |}];
              user1_count := 1; user2_count := 0; total_count := 1 |}).
  - apply reachable_step, reachable_start.
  - apply lookup_insert_eq.
Defined.

(** ** Completion *)

Lemma final_cons e r rs negs : final ((e, r) :: rs) negs = final rs (handle e r negs).1.2.
Proof.
  unfold final. cbn [serve]. destruct (handle e r negs) as [[resp negs1] calls].
  cbn [fst snd]. by destruct (serve rs negs1).
Qed.

Lemma completed_true negs id :
  store_ok negs → completed negs id = true →
  ∃ s, negs !! id = Some s ∧ total_count s = 10%Z
       ∧ user1_count s = 5%Z ∧ user2_count s = 5%Z.
Proof.
  unfold completed. intros Hok Hc. destruct (negs !! id) as [s|] eqn:Hs; [|done].
  apply Z.eqb_eq in Hc. destruct (Hok id s Hs) as (? & ? & ? & ?).
  exists s. repeat split; lia.
Qed.

(** A completed session is never written again. *)
Lemma completed_stays e r negs id :
  store_ok negs → completed negs id = true → negs !! uuid4 e = None →
  (handle e r negs).1.2 !! id = negs !! id.
Proof.
  intros Hok Hc Hfresh.
  destruct (completed_true negs id Hok Hc) as (s & Hs & _ & H1 & H2).
  destruct (handle_store e r negs)
    as [-> | (id' & s' & u & msg & Hs' & Hu & Hq & ->)]; [done|].
  destruct (decide (id' = id)) as [-> | Hne]; [| by rewrite lookup_insert_ne].
  exfalso. destruct Hs' as [Hs' | [-> _]]; [| congruence].
  assert (s' = s) as -> by congruence.
  destruct Hu as [-> | ->].
  - change (count_of user1 s) with (user1_count s) in Hq. lia.
  - change (count_of user2 s) with (user2_count s) in Hq. lia.
Qed.

Lemma completed_step e r negs id :
  store_ok negs → completed negs id = true → negs !! uuid4 e = None →
  completed (handle e r negs).1.2 id = true.
Proof. intros. unfold completed. by rewrite completed_stays. Qed.

Lemma completed_final rs negs id :
  store_ok negs → fresh_ids rs negs → completed negs id = true →
  completed (final rs negs) id = true.
Proof.
  revert negs; induction rs as [| [e r] rs IH]; intros negs Hok Hf Hc; [done|].
  destruct Hf as [Hfresh Hf]. rewrite final_cons.
  apply IH; [by apply handle_store_ok | done | by apply completed_step].
Qed.

Lemma completions_run rs negs id :
  store_ok negs → fresh_ids rs negs →
  completions id rs negs
  = if completed negs id then 0%nat
    else if completed (final rs negs) id then 1%nat else 0%nat.
Proof.
  revert negs; induction rs as [| [e r] rs IH]; intros negs Hok Hf.
  - cbn. unfold final; cbn. by destruct (completed negs id).
  - destruct Hf as [Hfresh Hf]. cbn [completions]. cbv zeta. rewrite final_cons.
    rewrite IH by (by try apply handle_store_ok).
    destruct (completed negs id) eqn:Hc.
    + by rewrite completed_step.
    + destruct (completed (handle e r negs).1.2 id) eqn:Hc'; [| done].
      by rewrite completed_final by (by try apply handle_store_ok).
Qed.

Lemma becomes_completed e r negs id :
  store_ok negs →
  completed negs id = false ∧ completed (handle e r negs).1.2 id = true
  ↔ tenth_message negs (handle e r negs).1.2 id.
Proof.
  intros Hok. split.
  - intros [Hc Hc'].
    destruct (handle_store e r negs)
      as [Heq | (id' & s & u & msg & Hs & Hu & Hq & Heq)]; rewrite Heq in Hc' |- *;
      [congruence|].
    destruct (decide (id' = id)) as [-> | Hne].
    + unfold completed in Hc'. rewrite lookup_insert_eq in Hc'.
      apply Z.eqb_eq in Hc'. cbn in Hc'.
      destruct Hs as [Hs | [_ ->]]; [| cbn in Hc'; lia].
      destruct (Hok id s Hs) as (Hlen & Htot & _).
      exists s, (add_message u msg s), {| speaker := u; message_text := msg |}.
      rewrite lookup_insert_eq. repeat split; try done. lia.
    + unfold completed in Hc, Hc'. rewrite lookup_insert_ne in Hc' by done. congruence.
  - intros (s & s' & m & Hs & Hlen & Hs' & _ & Htot'). split.
    + unfold completed. rewrite Hs. destruct (Hok id s Hs) as (? & ? & _).
      apply Z.eqb_neq. lia.
    + unfold completed. rewrite Hs'. by apply Z.eqb_eq.
Qed.

Lemma status_in_progress id s :
  field (lit "status") (body (in_progress_reply id s)) = PStr (lit "in_progress").
Proof. reflexivity. Qed.

Lemma status_completed id v :
  field (lit "status") (body (completed_reply id v)) = PStr (lit "completed").
Proof. reflexivity. Qed.

(** The answer of a POST says "completed" exactly when the POST makes a
    session completed. *)
Lemma completed_answer e j negs :
  store_ok negs → negs !! uuid4 e = None →
  field (lit "status") (body (negotiate e j negs).1.1) = PStr (lit "completed")
  ↔ ∃ id, completed negs id = false ∧ completed (negotiate e j negs).1.2 id = true.
Proof.
  intros Hok Hfresh.
  destruct (negotiate_inv e j negs)
    as [(msg & code & _ & ->)
       | (d & u & id & s & _ & _ & Hu & _ & Hid & Hq & ->)]; cbv zeta.
  - split; [discriminate|]. intros (id & Hc & Hc'). cbn in Hc'. congruence.
  - destruct (total_count (add_message u (field (lit "message") (PDict d)) s) =? 10)%Z
      eqn:Htot; cbn [fst snd].
    + split; [intros _ | by rewrite status_completed]. exists id. unfold completed.
      rewrite lookup_insert_eq, Htot. split; [|done].
      destruct Hid as [(_ & -> & _) | (_ & _ & Hs)]; [by rewrite Hfresh|].
      rewrite Hs. apply Z.eqb_neq. apply Z.eqb_eq in Htot. cbn in Htot. lia.
    + split.
      * rewrite status_in_progress. discriminate.
      * intros (id' & Hc & Hc'). unfold completed in Hc, Hc'.
        destruct (decide (id = id')) as [<- | Hne].
        -- rewrite lookup_insert_eq in Hc'. congruence.
        -- rewrite lookup_insert_ne in Hc' by done. congruence.
Qed.

(** C2. From any dictionary the service can reach, and as long as [uuid4]
    draws ids that are not in use: a session becomes completed at the very
    step that stores its tenth message, and that is the step whose POST is
    answered "completed"; once it is completed both counters are 5, no
    request writes to it again and a POST from either speaker is answered
    with the quota error; so along any run it becomes completed at most
    once, and once exactly if it ends up completed. *)
Theorem completed_exactly_once negs id :
  reachable negs →
  (∀ e r, completed negs id = false ∧ completed (handle e r negs).1.2 id = true
          ↔ tenth_message negs (handle e r negs).1.2 id)
  ∧ (∀ e j, negs !! uuid4 e = None →
       field (lit "status") (body (negotiate e j negs).1.1) = PStr (lit "completed")
       ↔ ∃ id', completed negs id' = false ∧ completed (negotiate e j negs).1.2 id' = true)
  ∧ (completed negs id = true →
       (∃ s, negs !! id = Some s ∧ user1_count s = 5%Z ∧ user2_count s = 5%Z)
       ∧ (∀ e r, negs !! uuid4 e = None → (handle e r negs).1.2 !! id = negs !! id)
       ∧ (∀ e d u, field (lit "negotiation_id") (PDict d) = PStr id → id ≠ [] →
            field (lit "speaker") (PDict d) = PStr u → u = user1 ∨ u = user2 →
            truthy (field (lit "message") (PDict d)) = true →
            negotiate e (Ok (PDict d)) negs = (quota_error u, negs, [])))
  ∧ (∀ rs, fresh_ids rs negs →
       completions id rs negs
       = if completed negs id then 0%nat
         else if completed (final rs negs) id then 1%nat else 0%nat).
Proof.
  intros Hok%reachable_store_ok. split; [| split; [| split]].
  - intros e r. by apply becomes_completed.
  - intros e j Hfresh. by apply completed_answer.
  - intros Hc. destruct (completed_true negs id Hok Hc) as (s & Hs & _ & H1 & H2).
    split; [by eauto | split].
    + intros e r Hfresh. by apply completed_stays.
    + intros e d u Hid Hne Hspk Hu Hmsg.
      rewrite (negotiate_valid _ _ _ _ Hspk Hu Hmsg), Hid.
      rewrite (open_existing _ _ _ _ Hne Hs).
      apply (add_and_reply_reject _ _ _ _ _ s); [done | done |].
      destruct Hu as [-> | ->].
      * change (count_of user1 s) with (user1_count s). lia.
      * change (count_of user2 s) with (user2_count s). lia.
  - intros rs Hf. by apply completions_run.
Qed.

Lemma completed_exactly_once_witness :
  completions (lit "id-1") full_run ∅ = 1%nat.
Proof.
  destruct (completed_exactly_once ∅ (lit "id-1") reachable_start) as (_ & _ & _ & H).
  rewrite H.
  - vm_compute. reflexivity.
  - vm_compute. repeat split.
Defined.

(** ** The completion service *)

Lemma generate_verdict_calls e msgs : (generate_verdict e msgs).2 = [build_payload e msgs].
Proof. reflexivity. Qed.

Lemma generate_verdict_failure e msgs v :
  oracle_fails e msgs v → (generate_verdict e msgs).1 = v.
Proof.
  intros [ex Hex | r Hr Hs]; unfold generate_verdict; cbn [fst].
  - by rewrite Hex.
  - rewrite Hr. cbn. apply Z.eqb_neq in Hs. by rewrite Hs.
Qed.

(** C6. When the call to the completion service fails, [generate_verdict]
    returns a verdict whose text carries the failure, and the POST that
    stores the tenth message is answered 200 "completed" with that verdict.
    If [requests.post] raised [ex], the verdict is the summary "Error
    generating verdict." with the compromise "An error occurred: " followed
    by [str(ex)]; if the reply [r] has a status other than 200, it is the
    summary "API request failed." with the compromise "Status code: ",
    the status code, ". Error: " and the body of the reply. *)
Theorem oracle_failure_is_reported_in_verdict e msgs v :
  oracle_fails e msgs v →
  ((∃ ex, requests_post e (build_payload e msgs) = Raise ex
          ∧ field k_summary v = PStr (lit "Error generating verdict.")
          ∧ field k_compromise v = PStr (lit "An error occurred: " ++ exn_str ex))
   ∨ (∃ r, requests_post e (build_payload e msgs) = Ok r ∧ status_code r ≠ 200%Z
           ∧ field k_summary v = PStr (lit "API request failed.")
           ∧ field k_compromise v
             = PStr (lit "Status code: " ++ decimal (status_code r)
                     ++ lit ". Error: " ++ text r)))
  ∧ generate_verdict e msgs = (v, [build_payload e msgs])
  ∧ ∀ d u id s negs,
      field (lit "negotiation_id") (PDict d) = PStr id → id ≠ [] →
      field (lit "speaker") (PDict d) = PStr u → u = user1 ∨ u = user2 →
      truthy (field (lit "message") (PDict d)) = true →
      negs !! id = Some s → total_count s = 9%Z → (count_of u s < 5)%Z →
      messages (add_message u (field (lit "message") (PDict d)) s) = msgs →
      negotiate e (Ok (PDict d)) negs
      = (completed_reply id v,
         <[id := add_message u (field (lit "message") (PDict d)) s]> negs,
         [build_payload e msgs])
      ∧ status (completed_reply id v) = 200%Z.
Proof.
  intros Hf. split; [| split].
  - destruct Hf as [ex Hex | r Hr Hs]; [left; by exists ex | right; by exists r].
  - rewrite (surjective_pairing (generate_verdict e msgs)).
    by rewrite (generate_verdict_failure _ _ _ Hf).
  - intros d u id s negs Hid Hne Hspk Hu Hmsg Hs Htot Hq Hmsgs. split; [|done].
    rewrite (negotiate_valid _ _ _ _ Hspk Hu Hmsg), Hid.
    rewrite (open_existing _ _ _ _ Hne Hs).
    rewrite (add_and_reply_accept _ _ _ _ _ s) by done. cbv zeta.
    replace (total_count (add_message u (field (lit "message") (PDict d)) s)) with 10%Z
      by (cbn; lia).
    cbn [Z.eqb Pos.eqb]. rewrite Hmsgs.
    by rewrite (generate_verdict_failure _ _ _ Hf).
Qed.

(** User2 sends the tenth message.  In the first world the service cannot
    be reached; in the second it answers 401 with the body "No auth
    credentials found". *)
Lemma oracle_failure_is_reported_in_verdict_witness :
  negotiate (world (lit "id-2") (Raise connection_error))
            (post_body (Some (lit "id-1")) user2 (lit "b5"))
            (<[lit "id-1" := session_with 5 4]> ∅)
  = (completed_reply (lit "id-1")
       (PDict [(k_compromise,
                PStr (lit "An error occurred: HTTPSConnectionPool(host='openrouter.ai', port=443): Max retries exceeded"));
               (k_summary, PStr (lit "Error generating verdict."))]),
     <[lit "id-1" := add_message user2 (PStr (lit "b5")) (session_with 5 4)]>
       (<[lit "id-1" := session_with 5 4]> ∅),
     [build_payload (world (lit "id-2") (Raise connection_error))
        (messages (add_message user2 (PStr (lit "b5")) (session_with 5 4)))])
  ∧ negotiate (world (lit "id-2") (Ok unauthorized))
              (post_body (Some (lit "id-1")) user2 (lit "b5"))
              (<[lit "id-1" := session_with 5 4]> ∅)
    = (completed_reply (lit "id-1")
         (PDict [(k_summary, PStr (lit "API request failed."));
                 (k_compromise,
                  PStr (lit "Status code: 401. Error: No auth credentials found"))]),
       <[lit "id-1" := add_message user2 (PStr (lit "b5")) (session_with 5 4)]>
         (<[lit "id-1" := session_with 5 4]> ∅),
       [build_payload (world (lit "id-2") (Ok unauthorized))
          (messages (add_message user2 (PStr (lit "b5")) (session_with 5 4)))]).
Proof.
  split.
  - refine (proj1 (proj2 (proj2 (oracle_failure_is_reported_in_verdict
             (world (lit "id-2") (Raise connection_error))
             (messages (add_message user2 (PStr (lit "b5")) (session_with 5 4)))
             _ (network_error (world (lit "id-2") (Raise connection_error))
                  (messages (add_message user2 (PStr (lit "b5")) (session_with 5 4)))
                  connection_error eq_refl)))
             _ user2 (lit "id-1") (session_with 5 4) _ _ _ _ _ _ _ _ _ _)).
    + reflexivity.
    + discriminate.
    + reflexivity.
    + by right.
    + reflexivity.
    + apply lookup_insert_eq.
    + reflexivity.
    + reflexivity.
    + reflexivity.
  - refine (proj1 (proj2 (proj2 (oracle_failure_is_reported_in_verdict
             (world (lit "id-2") (Ok unauthorized))
             (messages (add_message user2 (PStr (lit "b5")) (session_with 5 4)))
             _ (non_success (world (lit "id-2") (Ok unauthorized))
                  (messages (add_message user2 (PStr (lit "b5")) (session_with 5 4)))
                  unauthorized eq_refl _)))
             _ user2 (lit "id-1") (session_with 5 4) _ _ _ _ _ _ _ _ _ _)).
    + discriminate.
    + reflexivity.
    + discriminate.
    + reflexivity.
    + by right.
    + reflexivity.
    + apply lookup_insert_eq.
    + reflexivity.
    + reflexivity.
    + reflexivity.
Defined.

(** C9. A read of a session whose total is 10 calls the completion service
    once more, on the transcript of the session, and shows the verdict that
    this call gives; it stores nothing, so that the next read asks again. *)
Theorem read_recomputes_verdict e id negs s :
  negs !! id = Some s → total_count s = 10%Z →
  get_negotiation e id negs
  = (ok (session_view id s ++ [(lit "verdict", (generate_verdict e (messages s)).1)]),
     negs, [build_payload e (messages s)])
  ∧ field (lit "verdict") (body (get_negotiation e id negs).1.1)
    = (generate_verdict e (messages s)).1
  ∧ ∀ e', get_negotiation e' id (get_negotiation e id negs).1.2
          = (ok (session_view id s
                 ++ [(lit "verdict", (generate_verdict e' (messages s)).1)]),
             negs, [build_payload e' (messages s)]).
Proof.
  intros Hs Htot.
  assert (Hget : ∀ e0, get_negotiation e0 id negs
    = (ok (session_view id s ++ [(lit "verdict", (generate_verdict e0 (messages s)).1)]),
       negs, [build_payload e0 (messages s)])).
  { intros e0. unfold get_negotiation, session_view. rewrite Hs, Htot. reflexivity. }
  split; [apply Hget | split].
  - rewrite Hget. cbn [fst body ok]. unfold session_view. rewrite Htot. reflexivity.
  - intros e'. rewrite (Hget e). cbn [fst snd]. apply Hget.
Qed.

(** Two worlds read the completed session: one gets an answer, the other
    cannot reach the service. *)
Lemma read_recomputes_verdict_witness :
  get_negotiation (world (lit "id-2") (Raise connection_error)) (lit "id-1")
    (get_negotiation (world (lit "id-2") (Ok (completion fenced_verdict))) (lit "id-1")
       (<[lit "id-1" := session_with 5 5]> ∅)).1.2
  = (ok (session_view (lit "id-1") (session_with 5 5)
         ++ [(lit "verdict", verdict_error connection_error)]),
     <[lit "id-1" := session_with 5 5]> ∅,
     [build_payload (world (lit "id-2") (Raise connection_error))
        (messages (session_with 5 5))]).
Proof.
  refine (proj2 (proj2 (read_recomputes_verdict
            (world (lit "id-2") (Ok (completion fenced_verdict))) (lit "id-1")
            (<[lit "id-1" := session_with 5 5]> ∅) (session_with 5 5) _ _)) _).
  - apply lookup_insert_eq.
  - reflexivity.
Defined.

(** ** The verdict *)

(** One step of a block: the outcome of its first statement is known. *)
Ltac run_bind := cbn [mbind result_bind fmap result_fmap].

Lemma generate_verdict_answer e msgs content :
  requests_post e (build_payload e msgs) = Ok (completion content) →
  (generate_verdict e msgs).1 = try_except (parse_verdict e content) verdict_error.
Proof. intros H. unfold generate_verdict. cbn [fst]. by rewrite H. Qed.

Lemma lacks_fields_dict d :
  lacks_fields (PDict d)
  = Ok (match dict_get k_summary d, dict_get k_compromise d with
        | Some _, Some _ => false
        | _, _ => true
        end).
Proof.
  unfold lacks_fields. cbn [contains_str].
  by destruct (dict_get k_summary d), (dict_get k_compromise d).
Qed.

Lemma parse_verdict_fallback e content v :
  load_verdict e content = Ok v → lacks_fields v = Ok true →
  parse_verdict e content = Ok format_fallback_verdict.
Proof. intros Hl Hm. unfold parse_verdict. cbv zeta. rewrite Hl. run_bind. rewrite Hm. by run_bind. Qed.

Lemma parse_verdict_fields e content d s c :
  load_verdict e content = Ok (PDict d) →
  dict_get k_summary d = Some s → dict_get k_compromise d = Some c →
  parse_verdict e content = Ok (PDict [(k_compromise, c); (k_summary, s)]).
Proof.
  intros Hl Hs Hc. unfold parse_verdict. cbv zeta. rewrite Hl. run_bind.
  rewrite lacks_fields_dict, Hs, Hc. run_bind. cbn [get_method]. by rewrite Hs, Hc.
Qed.

(** The four ways the inner block ends. *)
Lemma parse_verdict_cases e content :
  parse_verdict e content = Ok not_json_verdict
  ∨ parse_verdict e content = Ok format_fallback_verdict
  ∨ (∃ d s c, load_verdict e content = Ok (PDict d)
              ∧ dict_get k_summary d = Some s ∧ dict_get k_compromise d = Some c
              ∧ parse_verdict e content = Ok (PDict [(k_compromise, c); (k_summary, s)]))
  ∨ ∃ ex, parse_verdict e content = Raise ex.
Proof.
  destruct (load_verdict e content) as [v | ex] eqn:Hl.
  - destruct (lacks_fields v) as [[|] | ex] eqn:Hm.
    + right; left. by eapply parse_verdict_fallback.
    + destruct v as [| | | | | | | | | | | d].
      12: { rewrite lacks_fields_dict in Hm.
            destruct (dict_get k_summary d) as [s|] eqn:Hs; [| done].
            destruct (dict_get k_compromise d) as [c|] eqn:Hc; [| done].
            right; right; left. exists d, s, c. repeat split; try done.
            by eapply parse_verdict_fields. }
      all: right; right; right; unfold parse_verdict; cbv zeta; rewrite Hl; run_bind;
        rewrite Hm; run_bind; by eexists.
    + right; right; right. unfold parse_verdict. cbv zeta. rewrite Hl. run_bind.
      rewrite Hm. run_bind. destruct (is_json_decode_error ex) eqn:He; [| by eexists].
      exfalso. destruct v; cbn in Hm; try (injection Hm as <-; discriminate He);
        unfold lacks_fields in Hm; cbn in Hm; repeat case_match; simplify_eq.
  - unfold parse_verdict. cbv zeta. rewrite Hl. run_bind.
    destruct (is_json_decode_error ex); [by left | right; right; right; by eexists].
Qed.

Ltac constant_text := eexists; split; [reflexivity | discriminate].

(** C3, as the code has it. [generate_verdict] returns for every reply of
    the service, and so for every text of the model, a dictionary with
    exactly the fields [summary] and [compromise]; no exception leaves it.
    The two values are strings that are not empty, except when the object
    decoded from the answer is a dictionary that has both fields: its two
    values are then returned as they are. *)
Theorem verdict_always_has_both_fields e msgs :
  ∃ s c, two_fields (generate_verdict e msgs).1 s c
         ∧ ((nonempty_str s ∧ nonempty_str c)
            ∨ ∃ r content d,
                requests_post e (build_payload e msgs) = Ok r
                ∧ status_code r = 200%Z
                ∧ response_content r = Ok content
                ∧ load_verdict e content = Ok (PDict d)
                ∧ dict_get k_summary d = Some s
                ∧ dict_get k_compromise d = Some c).
Proof.
  assert (Herr : ∀ ex, ∃ s c, two_fields (verdict_error ex) s c
                              ∧ nonempty_str s ∧ nonempty_str c).
  { intros ex. eexists _, _. split; [by left|]. split; constant_text. }
  unfold generate_verdict. cbn [fst].
  destruct (requests_post e (build_payload e msgs)) as [r | ex] eqn:Hpost; run_bind;
    [| destruct (Herr ex) as (s & c & ? & ?); eauto].
  destruct (status_code r =? 200)%Z eqn:Hst.
  - apply Z.eqb_eq in Hst.
    destruct (response_content r) as [content | ex] eqn:Hc; run_bind;
      [| destruct (Herr ex) as (s & c & ? & ?); eauto].
    destruct (parse_verdict_cases e content)
      as [-> | [-> | [(d & s & c & Hl & Hs & Hk & ->) | [ex ->]]]]; cbn [try_except].
    + eexists _, _. split; [by left|]. left. split; constant_text.
    + eexists _, _. split; [by left|]. left. split; constant_text.
    + exists s, c. split; [by left|]. right. by exists r, content, d.
    + destruct (Herr ex) as (s & c & ? & ?); eauto.
  - cbn [try_except]. eexists _, _. split; [by right|]. left. split; constant_text.
Qed.

(** C3, as stated, fails: the model answers the JSON object whose two
    fields are empty strings, and the verdict returned has two empty
    strings. *)
Lemma verdict_fields_can_be_empty :
  ∃ content : str,
    content = verdict_json [] []
    ∧ (∀ e msgs,
         requests_post e (build_payload e msgs) = Ok (completion (PStr content)) →
         (0 < json_depth e)%nat →
         (generate_verdict e msgs).1 = PDict [(k_compromise, PStr []); (k_summary, PStr [])])
    ∧ ¬ nonempty_str (PStr []).
Proof.
  eexists. split; [reflexivity|]. split.
  - intros e msgs Hpost Hdepth. rewrite (generate_verdict_answer _ _ _ Hpost).
    rewrite (parse_verdict_fields e _ [(k_summary, PStr []); (k_compromise, PStr [])]
               (PStr []) (PStr [])); try reflexivity.
    unfold load_verdict, extract_json.
    destruct (json_depth e) as [|n]; [lia|]. vm_compute. reflexivity.
  - intros (s & [= <-] & Hs). done.
Qed.

Lemma extract_json_error e text :
  (∃ m ex, search_braces (strip (sub_fences 0 text)) = Some m
           ∧ json_loads (json_depth e) (clean_newlines m) = Raise ex)
  ∨ (search_braces (strip (sub_fences 0 text)) = None
     ∧ ∃ ex, literal_eval e (strip (sub_fences 0 text)) = Raise ex) →
  extract_json e (PStr text) = extract_error.
Proof.
  intros [(m & ex & Hm & Hj) | (Hm & ex & Hl)]; unfold extract_json; run_bind;
    rewrite Hm; [by rewrite Hj | by rewrite Hl].
Qed.

Lemma parse_verdict_extract_error e text :
  (∃ m ex, search_braces (strip (sub_fences 0 text)) = Some m
           ∧ json_loads (json_depth e) (clean_newlines m) = Raise ex)
  ∨ (search_braces (strip (sub_fences 0 text)) = None
     ∧ ∃ ex, literal_eval e (strip (sub_fences 0 text)) = Raise ex) →
  parse_verdict e (PStr text) = Ok extract_error_verdict.
Proof.
  intros H.
  apply (parse_verdict_fields e _ [(k_summary, PStr (lit "Error parsing response."));
           (k_compromise,
            PStr (lit "Could not extract valid JSON from the model response."))]);
    try reflexivity.
  unfold load_verdict. by rewrite extract_json_error.
Qed.

(** C4, as the code has it. When the brace span of the answer is rejected
    by [json.loads], or the answer has no brace span and is rejected by
    [ast.literal_eval], the verdict has the summary "Error parsing
    response." and the compromise "Could not extract valid JSON from the
    model response."; when the object decoded is a dictionary without
    [summary] or without [compromise], the verdict is the fixed fallback
    "Failed to generate proper verdict format." / "Please try again with
    clearer negotiation points.". *)
Theorem unusable_answer_verdict e content v :
  unusable_answer e content v → parse_verdict e content = Ok v.
Proof.
  intros [text m ex -> Hm Hj | text ex -> Hm Hl | d Hl Hd].
  - apply parse_verdict_extract_error. left; eauto.
  - apply parse_verdict_extract_error. right; eauto.
  - apply (parse_verdict_fallback _ _ _ Hl). rewrite lacks_fields_dict.
    destruct Hd as [-> | ->]; [done | by destruct (dict_get k_summary d)].
Qed.

(** The model answers the object [{"summary":"S"}], which has no
    [compromise]. *)
Lemma unusable_answer_verdict_witness :
  parse_verdict (world (lit "id-1") (Raise connection_error))
    (PStr (c_lbrace :: quoted k_summary ++ c_colon :: quoted (lit "S") ++ [c_rbrace]))
  = Ok format_fallback_verdict.
Proof.
  apply unusable_answer_verdict.
  apply (field_missing _ _ [(k_summary, PStr (lit "S"))]).
  - vm_compute. reflexivity.
  - right. reflexivity.
Defined.

(** C4, as stated, fails: for the answer [{x}] the brace span is rejected
    by [json.loads] (and [ast.literal_eval] is not asked), and the verdict
    is not the fixed fallback. *)
Lemma rejected_span_is_not_the_fallback :
  ∃ content : str,
    content = lit "{x}"
    ∧ (∀ depth, ∃ ex, json_loads depth content = Raise ex)
    ∧ (∀ e msgs,
         requests_post e (build_payload e msgs) = Ok (completion (PStr content)) →
         (generate_verdict e msgs).1 = extract_error_verdict)
    ∧ dict_get k_summary
        [(k_compromise, PStr (lit "Could not extract valid JSON from the model response."));
         (k_summary, PStr (lit "Error parsing response."))]
      ≠ Some (PStr (lit "Failed to generate proper verdict format.")).
Proof.
  eexists. split; [reflexivity|].
  assert (Hj : ∀ depth, ∃ ex, json_loads depth (lit "{x}") = Raise ex)
    by (intros [|n]; vm_compute; by eexists).
  split; [done | split; [| discriminate]].
  intros e msgs Hpost. rewrite (generate_verdict_answer _ _ _ Hpost).
  destruct (Hj (json_depth e)) as [ex Hex].
  rewrite parse_verdict_extract_error; [done|].
  left. by exists (lit "{x}"), ex.
Qed.

(** ** The fuel of the JSON scanner

    [json_loads] gives the scanner more fuel than twice the length of the
    text.  A call of the scanner either consumes a character or is the scan
    of an item that follows a call which did, so the fuel is never what ends
    a scan: with more fuel the result is the same. *)

Lemma skip_ws_length s : (length (skip_ws s) <= length s)%nat.
Proof. induction s as [|c s IH]; cbn [skip_ws]; [done|]. case_match; cbn [length]; lia. Qed.

Lemma bind_ok {A B} (r : result A) (k : A → result B) b :
  r ≫= k = Ok b → ∃ a, r = Ok a ∧ k a = Ok b.
Proof. destruct r as [a|ex]; [by exists a | done]. Qed.

Lemma scanstring_length s t rest :
  scanstring s = Ok (t, rest) → (length rest < length s)%nat.
Proof.
  remember (length s) as n eqn:Hn. revert s t rest Hn.
  induction n as [n IH] using lt_wf_ind. intros s t rest -> H.
  destruct s as [|c r]; [done|]. cbn [scanstring] in H.
  repeat case_match; simplify_eq; cbn [length] in *; try lia;
    apply bind_ok in H as ([t' rest'] & Hr & Hk); simplify_eq;
    (eapply IH in Hr; [| | reflexivity]); cbn [length] in *; lia.
Qed.

Lemma span_digits_length s ds rest :
  span_digits s = (ds, rest) → (length rest <= length s)%nat.
Proof.
  revert ds rest; induction s as [|c s IH]; intros ds rest H; cbn [span_digits] in H.
  - by simplify_eq.
  - case_match; [| simplify_eq; done].
    destruct (span_digits s) as [ds' rest'] eqn:Hs. simplify_eq.
    specialize (IH _ _ eq_refl). cbn [length]. lia.
Qed.

Lemma scan_frac_length s fs rest :
  scan_frac s = Some (fs, rest) → (length rest < length s)%nat.
Proof.
  unfold scan_frac. intros H. repeat case_match; simplify_eq.
  match goal with Hs : span_digits _ = _ |- _ => apply span_digits_length in Hs end.
  cbn [length] in *. lia.
Qed.

Lemma scan_exp_length s x rest :
  scan_exp s = Some (x, rest) → (length rest < length s)%nat.
Proof.
  unfold scan_exp. intros H. repeat case_match; simplify_eq;
    match goal with Hs : span_digits _ = _ |- _ => apply span_digits_length in Hs end;
    cbn [length] in *; lia.
Qed.

Lemma scan_number_length s v rest :
  scan_number s = Some (v, rest) → (length rest < length s)%nat.
Proof.
  unfold scan_number. intros H.
  repeat case_match; simplify_eq;
    repeat match goal with
      | Hs : span_digits _ = _ |- _ => apply span_digits_length in Hs
      | Hs : scan_frac _ = Some _ |- _ => apply scan_frac_length in Hs
      | Hs : scan_exp _ = Some _ |- _ => apply scan_exp_length in Hs
      end;
    cbn [length] in *; lia.
Qed.

Ltac note_skip_ws :=
  repeat match goal with
    | H : skip_ws ?r = _ |- _ =>
        let H' := fresh in
        pose proof (skip_ws_length r) as H'; rewrite H in H'; clear H
    | H : context [length (skip_ws ?r)] |- _ =>
        lazymatch goal with
        | _ : (length (skip_ws r) <= length r)%nat |- _ => fail
        | _ => pose proof (skip_ws_length r)
        end
    end.

Ltac open_bind :=
  repeat match goal with
    | H : _ ≫= _ = Ok _ |- _ =>
        let a := fresh in let Ha := fresh in let Hk := fresh in
        apply bind_ok in H as (a & Ha & Hk); try destruct a
    end.

(** A scan that succeeds leaves less text than it was given. *)
Lemma scan_consumes fuel :
  ∀ depth s,
    (∀ v rest, scan_once fuel depth s = Ok (v, rest) → (length rest < length s)%nat)
    ∧ (∀ acc v rest, scan_pairs fuel depth s acc = Ok (v, rest)
                     → (length rest < length s)%nat)
    ∧ (∀ acc v rest, scan_items fuel depth s acc = Ok (v, rest)
                     → (length rest < length s)%nat).
Proof.
  induction fuel as [|f IH]; intros depth s; [by repeat split|].
  assert (IH1 : ∀ d s v rest, scan_once f d s = Ok (v, rest) → (length rest < length s)%nat)
    by (intros d s'; apply (IH d s')).
  assert (IH2 : ∀ d s acc v rest, scan_pairs f d s acc = Ok (v, rest)
                                  → (length rest < length s)%nat)
    by (intros d s'; apply (IH d s')).
  assert (IH3 : ∀ d s acc v rest, scan_items f d s acc = Ok (v, rest)
                                  → (length rest < length s)%nat)
    by (intros d s'; apply (IH d s')).
  clear IH. split; [| split].
  - intros v rest H. cbn [scan_once] in H. destruct s as [|c r]; [done|].
    repeat case_match; simplify_eq; open_bind; simplify_eq;
      repeat match goal with
        | H : scanstring _ = Ok _ |- _ => apply scanstring_length in H
        | H : scan_number _ = Some _ |- _ => apply scan_number_length in H
        | H : scan_pairs _ _ _ _ = Ok _ |- _ => apply IH2 in H
        | H : scan_items _ _ _ _ = Ok _ |- _ => apply IH3 in H
        end;
      note_skip_ws; rewrite ?length_drop; cbn [length] in *; lia.
  - intros acc v rest H. cbn [scan_pairs] in H. destruct s as [|c r]; [done|].
    repeat first [progress open_bind | case_match]; simplify_eq;
      repeat match goal with
        | H : scanstring _ = Ok _ |- _ => apply scanstring_length in H
        | H : scan_once _ _ _ = Ok _ |- _ => apply IH1 in H
        | H : scan_pairs _ _ _ _ = Ok _ |- _ => apply IH2 in H
        end;
      note_skip_ws; cbn [length] in *; lia.
  - intros acc v rest H. cbn [scan_items] in H.
    repeat first [progress open_bind | case_match]; simplify_eq;
      repeat match goal with
        | H : scan_once _ _ _ = Ok _ |- _ => apply IH1 in H
        | H : scan_items _ _ _ _ = Ok _ |- _ => apply IH3 in H
        end;
      note_skip_ws; cbn [length] in *; lia.
Qed.

(** One more unit of fuel than the text needs changes nothing. *)
Lemma scan_fuel_step fuel :
  ∀ depth s,
    ((2 * length s < fuel)%nat → scan_once (S fuel) depth s = scan_once fuel depth s)
    ∧ ((2 * length s < fuel)%nat →
       ∀ acc, scan_pairs (S fuel) depth s acc = scan_pairs fuel depth s acc)
    ∧ ((2 * length s + 1 < fuel)%nat →
       ∀ acc, scan_items (S fuel) depth s acc = scan_items fuel depth s acc).
Proof.
  induction fuel as [|f IH]; intros depth s; [repeat split; lia|].
  assert (IH1 : ∀ d s, (2 * length s < f)%nat → scan_once (S f) d s = scan_once f d s)
    by (intros d s'; apply (IH d s')).
  assert (IH2 : ∀ d s acc, (2 * length s < f)%nat →
                           scan_pairs (S f) d s acc = scan_pairs f d s acc)
    by (intros d s' acc Hs; by apply (IH d s')).
  assert (IH3 : ∀ d s acc, (2 * length s + 1 < f)%nat →
                           scan_items (S f) d s acc = scan_items f d s acc)
    by (intros d s' acc Hs; by apply (IH d s')).
  clear IH. split; [| split]; intros Hlen.
  - destruct s as [|c r]; [done|]. cbn [length] in Hlen.
    change (scan_once (S (S f)) depth (c :: r))
      with (ltac:(let t := eval cbn [scan_once] in (scan_once (S (S f)) depth (c :: r)) in
                  exact t)).
    change (scan_once (S f) depth (c :: r))
      with (ltac:(let t := eval cbn [scan_once] in (scan_once (S f) depth (c :: r)) in
                  exact t)).
    repeat case_match; try reflexivity; note_skip_ws; cbn [length] in *;
      first [apply IH2 | apply IH3]; cbn [length]; lia.
  - intros acc. destruct s as [|c r]; [done|]. cbn [length] in Hlen.
    change (scan_pairs (S (S f)) depth (c :: r) acc)
      with (ltac:(let t := eval cbn [scan_pairs] in (scan_pairs (S (S f)) depth (c :: r) acc) in
                  exact t)).
    change (scan_pairs (S f) depth (c :: r) acc)
      with (ltac:(let t := eval cbn [scan_pairs] in (scan_pairs (S f) depth (c :: r) acc) in
                  exact t)).
    destruct (c =? c_quote); [| done].
    destruct (scanstring r) as [[k r1] | ex] eqn:Hk; [| done]. run_bind.
    apply scanstring_length in Hk.
    destruct (skip_ws r1) as [|c2 r2] eqn:Hs1; [done|].
    destruct (c2 =? c_colon); [| done]. note_skip_ws. cbn [length] in *.
    pose proof (skip_ws_length r2).
    rewrite IH1 by lia.
    destruct (scan_once f depth (skip_ws r2)) as [[v r3] | ex] eqn:Hv; [| done]. run_bind.
    apply (proj1 (scan_consumes f depth (skip_ws r2))) in Hv.
    destruct (skip_ws r3) as [|c4 r4] eqn:Hs3; [done|].
    destruct (c4 =? c_rbrace); [done|]. destruct (c4 =? c_comma); [| done].
    note_skip_ws. cbn [length] in *. pose proof (skip_ws_length r4).
    apply IH2. lia.
  - intros acc.
    change (scan_items (S (S f)) depth s acc)
      with (ltac:(let t := eval cbn [scan_items] in (scan_items (S (S f)) depth s acc) in
                  exact t)).
    change (scan_items (S f) depth s acc)
      with (ltac:(let t := eval cbn [scan_items] in (scan_items (S f) depth s acc) in
                  exact t)).
    rewrite IH1 by lia.
    destruct (scan_once f depth s) as [[v r1] | ex] eqn:Hv; [| done]. run_bind.
    apply (proj1 (scan_consumes f depth s)) in Hv.
    destruct (skip_ws r1) as [|c2 r2] eqn:Hs1; [done|].
    destruct (c2 =? c_rbracket); [done|]. destruct (c2 =? c_comma); [| done].
    note_skip_ws. cbn [length] in *. pose proof (skip_ws_length r2).
    apply IH3. lia.
Qed.

(** [json_loads] would find the same with any greater fuel. *)
Lemma json_loads_fuel depth s extra :
  scan_once (S (2 * length s) + extra) depth (skip_ws s)
  = scan_once (S (2 * length s)) depth (skip_ws s).
Proof.
  induction extra as [|n IH]; [by rewrite Nat.add_0_r|].
  rewrite Nat.add_succ_r, <- IH.
  apply (scan_fuel_step (S (2 * length s) + n) depth (skip_ws s)).
  pose proof (skip_ws_length s). lia.
Qed.

(** ** A verdict written as JSON is read back *)

Lemma hex4_low c :
  c < 32 → hex4 c_zero c_zero (hex_digit (c / 16)) (hex_digit (c mod 16)) = Some c.
Proof.
  intros H. destruct c as [|p]; [reflexivity|].
  do 5 (destruct p as [p|p|]; try reflexivity); lia.
Qed.

Lemma scanstring_escape_char c r t rest :
  scanstring r = Ok (t, rest) →
  scanstring (json_escape_char c ++ r) = Ok (c :: t, rest).
Proof.
  intros Hr. unfold json_escape_char.
  destruct (c =? c_quote) eqn:Hq; [apply N.eqb_eq in Hq as ->; cbn; by rewrite Hr |].
  destruct (c =? c_backslash) eqn:Hb; [apply N.eqb_eq in Hb as ->; cbn; by rewrite Hr |].
  destruct (c <? 32) eqn:Hlt.
  - apply N.ltb_lt in Hlt. cbn -[hex4 hex_digit N.div N.modulo].
    rewrite (hex4_low c Hlt).
    replace (is_high_surrogate c) with false
      by (symmetry; apply andb_false_intro1, N.leb_gt; lia).
    by rewrite Hr.
  - apply N.ltb_ge in Hlt. cbn [app scanstring]. rewrite Hq, Hb.
    replace (c <=? 31) with false by (symmetry; apply N.leb_gt; lia).
    by rewrite Hr.
Qed.

Lemma scanstring_escape s r :
  scanstring (json_escape s ++ c_quote :: r) = Ok (s, r).
Proof.
  induction s as [|c s IH]; [reflexivity|].
  unfold json_escape. cbn [map concat]. rewrite <- app_assoc.
  by apply scanstring_escape_char.
Qed.

(** One pair of an object whose key is [k] and whose value is the string
    [v], followed by [c]. *)
Lemma scan_pairs_string fuel depth k v c r acc :
  is_json_ws c = false →
  scan_pairs (S (S fuel)) depth
    (quoted (json_escape k) ++ c_colon :: quoted (json_escape v) ++ c :: r) acc
  = if c =? c_rbrace then Ok (PDict (dict_of_pairs (acc ++ [(k, PStr v)])), r)
    else if c =? c_comma then scan_pairs (S fuel) depth (skip_ws r) (acc ++ [(k, PStr v)])
    else Raise (json_error "Expecting ',' delimiter").
Proof.
  intros Hc. unfold quoted. cbn [app scan_pairs]. change (c_quote =? c_quote) with true.
  cbv iota. rewrite <- !app_assoc. cbn [app].
  rewrite scanstring_escape. run_bind. cbn [skip_ws]. change (is_json_ws c_colon) with false.
  cbv iota. change (c_colon =? c_colon) with true. cbv iota.
  cbn [skip_ws]. change (is_json_ws c_quote) with false. cbv iota.
  cbn [scan_once]. change (c_quote =? c_quote) with true. cbv iota.
  rewrite scanstring_escape. run_bind. cbn [skip_ws]. rewrite Hc. reflexivity.
Qed.

Ltac flatten_app := repeat (progress (cbn [app]; rewrite <- ?app_assoc)).

Lemma verdict_json_app s c r :
  verdict_json s c ++ r
  = c_lbrace :: quoted (json_escape k_summary) ++ c_colon :: quoted (json_escape s)
    ++ c_comma :: quoted (json_escape k_compromise) ++ c_colon :: quoted (json_escape c)
    ++ c_rbrace :: r.
Proof.
  unfold verdict_json, quoted.
  change (json_escape k_summary) with k_summary.
  change (json_escape k_compromise) with k_compromise.
  flatten_app. reflexivity.
Qed.

Lemma scan_once_verdict_json fuel depth s c r :
  scan_once (4 + fuel) (1 + depth) (verdict_json s c ++ r)
  = Ok (PDict [(k_summary, PStr s); (k_compromise, PStr c)], r).
Proof.
  rewrite verdict_json_app. cbn [Nat.add scan_once].
  change (c_lbrace =? c_quote) with false. change (c_lbrace =? c_lbrace) with true.
  cbv iota. unfold quoted at 1. cbn [app skip_ws].
  change (is_json_ws c_quote) with false. cbv iota.
  change (c_quote =? c_rbrace) with false. cbv iota.
  change (c_quote :: (json_escape k_summary ++ [c_quote]) ++ ?x)
    with (quoted (json_escape k_summary) ++ x).
  rewrite scan_pairs_string by reflexivity.
  change (c_comma =? c_rbrace) with false. change (c_comma =? c_comma) with true.
  cbv iota. unfold quoted at 1. cbn [app skip_ws].
  change (is_json_ws c_quote) with false. cbv iota.
  change (c_quote :: (json_escape k_compromise ++ [c_quote]) ++ ?x)
    with (quoted (json_escape k_compromise) ++ x).
  rewrite scan_pairs_string by reflexivity. reflexivity.
Qed.

Lemma verdict_json_length s c : (4 <= length (verdict_json s c))%nat.
Proof.
  rewrite <- (app_nil_r (verdict_json s c)), verdict_json_app. unfold quoted.
  cbn [length app]. rewrite !length_app. cbn [length]. lia.
Qed.

Lemma json_loads_verdict_json depth s c :
  (0 < depth)%nat →
  json_loads depth (verdict_json s c)
  = Ok (PDict [(k_summary, PStr s); (k_compromise, PStr c)]).
Proof.
  intros Hd. unfold json_loads.
  change (starts_with [65279] (verdict_json s c)) with false. cbv iota.
  change (skip_ws (verdict_json s c)) with (verdict_json s c).
  pose proof (verdict_json_length s c) as Hlen.
  replace (S (2 * length (verdict_json s c)))
    with (4 + (2 * length (verdict_json s c) - 3))%nat by lia.
  destruct depth as [|d]; [lia|].
  rewrite <- (app_nil_r (verdict_json s c)) at 2.
  change (S d) with (1 + d)%nat.
  rewrite scan_once_verdict_json. reflexivity.
Qed.

(** No character of a JSON string is a control character. *)
Lemma json_escape_printable s : Forall (λ x, 32 <= x) (json_escape s).
Proof.
  induction s as [|c s IH]; [constructor|].
  unfold json_escape. cbn [map concat]. apply Forall_app. split; [| exact IH].
  unfold json_escape_char.
  destruct (c =? c_quote); [by repeat first [apply Forall_nil_2 | apply Forall_cons; split] |].
  destruct (c =? c_backslash);
    [by repeat first [apply Forall_nil_2 | apply Forall_cons; split] |].
  destruct (c <? 32) eqn:Hlt.
  - repeat first [apply Forall_nil_2 | apply Forall_cons; split]; try done;
      unfold hex_digit; case_match; (etrans; [| apply N.le_add_r]); done.
  - apply N.ltb_ge in Hlt. by repeat first [apply Forall_nil_2 | apply Forall_cons; split].
Qed.

Lemma verdict_json_printable s c : Forall (λ x, 32 <= x) (verdict_json s c).
Proof.
  rewrite <- (app_nil_r (verdict_json s c)), verdict_json_app. unfold quoted.
  repeat first [ apply Forall_nil_2 | apply json_escape_printable
               | apply Forall_cons; split; [done|] | apply Forall_app; split ].
Qed.

Lemma clean_newlines_printable s : Forall (λ x, 32 <= x) s → clean_newlines s = s.
Proof.
  unfold clean_newlines. induction 1 as [|c s Hc _ IH]; [done|].
  cbn [map]. replace (c =? c_lf) with false by (symmetry; apply N.eqb_neq; unfold c_lf; lia).
  rewrite filter_cons_True by (unfold c_cr; lia). by rewrite IH.
Qed.

(** ** The text around the JSON document *)

Lemma starts_with_app_other p a x b :
  forallb (λ y, negb (y =? x)) p = true →
  starts_with p (a ++ x :: b) = starts_with p a.
Proof.
  revert a; induction p as [|y p IH]; intros a Hp; [by destruct a|].
  cbn in Hp. apply andb_prop in Hp as [Hy Hp]. apply negb_true_iff in Hy.
  destruct a as [|z a]; cbn [app starts_with]; [by rewrite Hy | by rewrite IH].
Qed.

Lemma starts_with_length p a : starts_with p a = true → (length p <= length a)%nat.
Proof.
  revert a; induction p as [|y p IH]; intros [|z a] H; cbn in *; try done; try lia.
  apply andb_prop in H as [_ H]. apply IH in H. lia.
Qed.

Lemma starts_with_app p q s :
  starts_with (p ++ q) s = starts_with p s && starts_with q (drop (length p) s).
Proof.
  revert s; induction p as [|y p IH]; intros s; [by destruct s|].
  destruct s as [|z s]; cbn [app starts_with length drop]; [done|].
  by rewrite IH, andb_assoc.
Qed.

Lemma sub_fences_no_fence c r :
  starts_with fence (c :: r) = false → sub_fences 0 (c :: r) = c :: sub_fences 0 r.
Proof.
  intros H. cbn [sub_fences].
  change (lit "```json") with (fence ++ lit "json"). rewrite starts_with_app.
  change (lit "```") with fence. by rewrite H.
Qed.

(** The fences before an opening brace are removed on their own. *)
Lemma sub_fences_before_brace a k b :
  (k <= length a)%nat →
  sub_fences k (a ++ c_lbrace :: b) = sub_fences k a ++ sub_fences 0 (c_lbrace :: b).
Proof.
  revert k; induction a as [|c a IH]; intros k Hk.
  - cbn in Hk. by replace k with 0%nat by lia.
  - cbn [length] in Hk. rewrite <- app_comm_cons.
    destruct k as [|k]; [| cbn [sub_fences]; apply IH; lia].
    unfold sub_fences at 1 2; fold sub_fences. rewrite app_comm_cons.
    rewrite !starts_with_app_other by reflexivity.
    destruct (starts_with (lit "```json") (c :: a)) eqn:H7.
    { apply starts_with_length in H7.
      change (length (lit "```json")) with 7%nat in H7. cbn in H7. apply IH. lia. }
    destruct (starts_with (lit "```") (c :: a)) eqn:H3.
    { apply starts_with_length in H3.
      change (length (lit "```")) with 3%nat in H3. cbn in H3. apply IH. lia. }
    rewrite <- app_comm_cons. f_equal. by apply IH; lia.
Qed.

Lemma starts_with_escape p s x r :
  forallb (λ y, y =? c_backtick) p = true → x ≠ c_backtick →
  starts_with p (json_escape s ++ x :: r) = starts_with p s.
Proof.
  revert p; induction s as [|a s IH]; intros [|y p] Hp Hx; try done.
  - cbn [forallb] in Hp. apply andb_prop in Hp as [->%N.eqb_eq _].
    change (json_escape [] ++ x :: r) with (x :: r). cbn [starts_with].
    apply andb_false_intro1, N.eqb_neq. congruence.
  - cbn [forallb] in Hp. apply andb_prop in Hp as [->%N.eqb_eq Hp].
    unfold json_escape. cbn [map concat]. fold (json_escape s). rewrite <- app_assoc.
    unfold json_escape_char.
    destruct (a =? c_quote) eqn:Hq; [apply N.eqb_eq in Hq as ->; done|].
    destruct (a =? c_backslash) eqn:Hb; [apply N.eqb_eq in Hb as ->; done|].
    destruct (a <? 32) eqn:Hlt.
    + apply N.ltb_lt in Hlt. cbn [app starts_with].
      change (c_backtick =? c_backslash) with false.
      symmetry. apply andb_false_intro1, N.eqb_neq. unfold c_backtick. lia.
    + cbn [app starts_with]. by rewrite IH.
Qed.

Lemma contains_cons p c s : contains p (c :: s) = false →
  starts_with p (c :: s) = false ∧ contains p s = false.
Proof. cbn [contains]. by intros [? ?]%orb_false_elim. Qed.

(** A JSON string whose value has no fence is left alone. *)
Lemma sub_fences_escape s x r :
  contains fence s = false → x ≠ c_backtick →
  sub_fences 0 (json_escape s ++ x :: r) = json_escape s ++ sub_fences 0 (x :: r).
Proof.
  intros Hs Hx. induction s as [|a s IH]; [done|].
  apply contains_cons in Hs as [Hhd Hs].
  unfold json_escape. cbn [map concat]. fold (json_escape s). rewrite <- !app_assoc.
  unfold json_escape_char.
  destruct (a =? c_quote) eqn:Hq;
    [cbn [app]; rewrite !sub_fences_no_fence by reflexivity; by rewrite IH|].
  destruct (a =? c_backslash) eqn:Hb;
    [cbn [app]; rewrite !sub_fences_no_fence by reflexivity; by rewrite IH|].
  destruct (a <? 32) eqn:Hlt.
  - cbn [app]. rewrite 4!sub_fences_no_fence by reflexivity.
    assert (Hd : ∀ n, hex_digit n ≠ c_backtick).
    { intros n. unfold hex_digit, c_backtick. destruct (N.ltb_spec n 10); lia. }
    rewrite 2!sub_fences_no_fence
      by (cbn [starts_with fence]; apply andb_false_intro1, N.eqb_neq;
          intros ?; by eapply Hd).
    by rewrite IH.
  - cbn [app]. rewrite sub_fences_no_fence; [by rewrite IH|].
    pose proof (starts_with_escape fence (a :: s) x r eq_refl Hx) as H.
    change (json_escape (a :: s)) with (json_escape_char a ++ json_escape s) in H.
    unfold json_escape_char at 1 in H. rewrite Hq, Hb, Hlt in H.
    by rewrite <- Hhd.
Qed.

Lemma sub_fences_verdict_json s c post :
  contains fence s = false → contains fence c = false →
  sub_fences 0 (verdict_json s c ++ post) = verdict_json s c ++ sub_fences 0 post.
Proof.
  intros Hs Hc. rewrite !verdict_json_app. unfold quoted. flatten_app.
  repeat first [ rewrite sub_fences_no_fence by reflexivity
               | rewrite sub_fences_escape by done ].
  reflexivity.
Qed.

Lemma sub_fences_elem x k s : x ∈ sub_fences k s → x ∈ s.
Proof.
  revert k; induction s as [|c s IH]; intros k; [done|].
  cbn [sub_fences]. destruct k as [|k]; [| intros ?%IH; by right].
  destruct (starts_with _ _); [intros ?%IH; by right|].
  destruct (starts_with _ _); [intros ?%IH; by right|].
  intros [-> | ?%IH]%elem_of_cons; [by left | by right].
Qed.

Lemma lstrip_elem x s : x ∈ lstrip s → x ∈ s.
Proof.
  induction s as [|c s IH]; [done|]. cbn [lstrip].
  destruct (is_space c); [intros ?%IH; by right | done].
Qed.

Lemma rstrip_elem x s : x ∈ rstrip s → x ∈ s.
Proof.
  induction s as [|c s IH]; [done|]. cbn [rstrip].
  destruct (rstrip s) as [|y t].
  - destruct (is_space c);
      [by intros ?%elem_of_nil | intros ->%list_elem_of_singleton; by left].
  - intros [-> | ?]%elem_of_cons; [by left | right; by apply IH].
Qed.

Lemma lstrip_before x a b :
  is_space x = false → lstrip (a ++ x :: b) = lstrip a ++ x :: b.
Proof.
  intros Hx. induction a as [|c a IH]; cbn [app lstrip]; [by rewrite Hx|].
  by case_match.
Qed.

Lemma rstrip_after x a b :
  is_space x = false → rstrip (a ++ x :: b) = a ++ x :: rstrip b.
Proof.
  intros Hx. induction a as [|c a IH]; cbn [app rstrip].
  - rewrite Hx. by destruct (rstrip b).
  - rewrite IH. by destruct a.
Qed.

Lemma from_first_lbrace_app a b :
  c_lbrace ∉ a → from_first_lbrace (a ++ c_lbrace :: b) = Some (c_lbrace :: b).
Proof.
  induction a as [|c a IH]; intros Ha; [done|].
  apply not_elem_of_cons in Ha as [Hc Ha]. cbn [app from_first_lbrace].
  replace (c =? c_lbrace) with false by (symmetry; apply N.eqb_neq; congruence).
  by apply IH.
Qed.

Lemma upto_last_rbrace_none b : c_rbrace ∉ b → upto_last_rbrace b = None.
Proof.
  induction b as [|c b IH]; intros Hb; [done|].
  apply not_elem_of_cons in Hb as [Hc Hb]. cbn [upto_last_rbrace]. rewrite IH by done.
  by replace (c =? c_rbrace) with false by (symmetry; apply N.eqb_neq; congruence).
Qed.

Lemma upto_last_rbrace_app m b :
  c_rbrace ∉ b → upto_last_rbrace (m ++ c_rbrace :: b) = Some (m ++ [c_rbrace]).
Proof.
  intros Hb. induction m as [|c m IH]; cbn [app upto_last_rbrace].
  - by rewrite upto_last_rbrace_none.
  - by rewrite IH.
Qed.

Lemma verdict_json_braces s c :
  ∃ m, ∀ r, verdict_json s c ++ r = c_lbrace :: m ++ c_rbrace :: r.
Proof.
  exists (quoted k_summary ++ c_colon :: quoted (json_escape s)
          ++ c_comma :: quoted k_compromise ++ c_colon :: quoted (json_escape c)).
  intros r. unfold verdict_json. flatten_app. reflexivity.
Qed.

(** The brace span of a document written between brace-free prose. *)
Lemma search_braces_verdict_json pre post s c :
  c_lbrace ∉ pre → c_rbrace ∉ post →
  contains fence s = false → contains fence c = false →
  search_braces (strip (sub_fences 0 (pre ++ verdict_json s c ++ post)))
  = Some (verdict_json s c).
Proof.
  intros Hpre Hpost Hs Hc.
  destruct (verdict_json_braces s c) as [m Hm].
  rewrite (Hm post), sub_fences_before_brace by lia.
  rewrite <- (Hm post), sub_fences_verdict_json, Hm by done.
  unfold strip. rewrite lstrip_before by reflexivity.
  change (c_lbrace :: m ++ c_rbrace :: sub_fences 0 post)
    with ((c_lbrace :: m) ++ c_rbrace :: sub_fences 0 post).
  rewrite app_assoc, rstrip_after by reflexivity.
  rewrite <- app_assoc. cbn [app]. unfold search_braces.
  rewrite from_first_lbrace_app by (by intros ?%lstrip_elem%sub_fences_elem).
  rewrite upto_last_rbrace_app by (by intros ?%rstrip_elem%sub_fences_elem).
  by rewrite <- (app_nil_r (verdict_json s c)), (Hm []).
Qed.

Lemma load_verdict_json e pre post s c :
  c_lbrace ∉ pre → c_rbrace ∉ post →
  contains fence s = false → contains fence c = false → (0 < json_depth e)%nat →
  load_verdict e (PStr (pre ++ verdict_json s c ++ post))
  = Ok (PDict [(k_summary, PStr s); (k_compromise, PStr c)]).
Proof.
  intros Hpre Hpost Hs Hc Hd. unfold load_verdict, extract_json. run_bind.
  rewrite search_braces_verdict_json by done.
  rewrite clean_newlines_printable by apply verdict_json_printable.
  by rewrite json_loads_verdict_json.
Qed.

(** C5, as the code has it. When the text of the model is the document
    [{"summary":"S","compromise":"C"}], with prose and code fences before
    it that hold no opening brace and after it that hold no closing brace,
    and neither [S] nor [C] holds a fence, the verdict returned has the
    summary [S] and the compromise [C]. *)
Theorem verdict_json_round_trip e msgs pre post s c :
  c_lbrace ∉ pre → c_rbrace ∉ post →
  contains fence s = false → contains fence c = false →
  (0 < json_depth e)%nat →
  requests_post e (build_payload e msgs)
  = Ok (completion (PStr (pre ++ verdict_json s c ++ post))) →
  parse_verdict e (PStr (pre ++ verdict_json s c ++ post))
  = Ok (PDict [(k_compromise, PStr c); (k_summary, PStr s)])
  ∧ (generate_verdict e msgs).1 = PDict [(k_compromise, PStr c); (k_summary, PStr s)].
Proof.
  intros Hpre Hpost Hs Hc Hd Hpost'.
  assert (Hp : parse_verdict e (PStr (pre ++ verdict_json s c ++ post))
               = Ok (PDict [(k_compromise, PStr c); (k_summary, PStr s)])).
  { apply (parse_verdict_fields e _ [(k_summary, PStr s); (k_compromise, PStr c)]);
      [by apply load_verdict_json | reflexivity | reflexivity]. }
  split; [done|]. by rewrite (generate_verdict_answer _ _ _ Hpost'), Hp.
Qed.

Ltac decide_closed := refine (bool_decide_unpack _ _); vm_compute; exact I.

(** The fenced answer of the example run. *)
Lemma verdict_json_round_trip_witness :
  (generate_verdict (world (lit "id-2") (Ok (completion fenced_verdict))) []).1
  = PDict [(k_compromise, PStr (lit "Share it."));
           (k_summary, PStr (lit "Both want the car."))].
Proof.
  refine (proj2 (verdict_json_round_trip
            (world (lit "id-2") (Ok (completion fenced_verdict))) []
            (lit "Here is the verdict: ```json" ++ [c_lf]) ([c_lf] ++ lit "```")
            (lit "Both want the car.") (lit "Share it.") _ _ _ _ _ _)).
  - decide_closed.
  - decide_closed.
  - reflexivity.
  - reflexivity.
  - cbn. lia.
  - reflexivity.
Defined.

(** C5, as stated, fails in two ways: prose that holds a brace before the
    document makes the brace span start too early, and a fence inside [S]
    is removed from it. *)
Lemma verdict_json_round_trip_fails :
  ∃ pre s : str,
    pre = lit "{note} " ∧ s = lit "a```b"
    ∧ (∀ e msgs,
         requests_post e (build_payload e msgs)
         = Ok (completion (PStr (pre ++ verdict_json (lit "S") (lit "C")))) →
         (generate_verdict e msgs).1 = extract_error_verdict)
    ∧ extract_error_verdict ≠ PDict [(k_compromise, PStr (lit "C")); (k_summary, PStr (lit "S"))]
    ∧ (∀ e msgs,
         requests_post e (build_payload e msgs)
         = Ok (completion (PStr (verdict_json s (lit "C")))) →
         (0 < json_depth e)%nat →
         (generate_verdict e msgs).1
         = PDict [(k_compromise, PStr (lit "C")); (k_summary, PStr (lit "ab"))])
    ∧ lit "ab" ≠ s.
Proof.
  eexists _, _. split; [reflexivity|]. split; [reflexivity|].
  split; [| split; [discriminate | split; [| discriminate]]].
  - intros e msgs Hpost. rewrite (generate_verdict_answer _ _ _ Hpost).
    rewrite parse_verdict_extract_error; [done|]. left.
    eexists. 
    assert (Hj : ∀ depth, ∃ ex,
      json_loads depth (clean_newlines (lit "{note} " ++ verdict_json (lit "S") (lit "C")))
      = Raise ex) by (intros [|n]; vm_compute; by eexists).
    destruct (Hj (json_depth e)) as [ex Hex]. exists ex. split; [|exact Hex].
    vm_compute. reflexivity.
  - intros e msgs Hpost Hd. rewrite (generate_verdict_answer _ _ _ Hpost).
    rewrite (parse_verdict_fields e _
               [(k_summary, PStr (lit "ab")); (k_compromise, PStr (lit "C"))]
               (PStr (lit "ab")) (PStr (lit "C"))); try reflexivity.
    unfold load_verdict, extract_json.
    destruct (json_depth e) as [|n]; [lia|]. vm_compute. reflexivity.
Qed.

(** * Further properties of the routes *)

Lemma count_speaker_app u msgs m :
  count_speaker u (msgs ++ [m])
  = (count_speaker u msgs + if decide (speaker m = u) then 1 else 0)%Z.
Proof.
  unfold count_speaker. rewrite filter_app, length_app.
  rewrite filter_cons, filter_nil. case_decide; cbn [length]; lia.
Qed.

Lemma session_sound_new : session_sound new_session.
Proof. repeat split. constructor. Qed.

Lemma session_sound_add u msg s :
  session_sound s → u = user1 ∨ u = user2 → truthy msg = true →
  session_sound (add_message u msg s).
Proof.
  intros (H1 & H2 & Hall) Hu Hmsg. unfold session_sound. cbn [add_message messages
    user1_count user2_count]. rewrite !count_speaker_app. cbn [speaker].
  split; [| split].
  - destruct Hu as [-> | ->].
    + change (str_eqb user1 user1) with true. rewrite decide_True by done. lia.
    + change (str_eqb user2 user1) with false. rewrite decide_False by done. lia.
  - destruct Hu as [-> | ->].
    + change (str_eqb user1 user1) with true. rewrite decide_False by done. lia.
    + change (str_eqb user2 user1) with false. rewrite decide_True by done. lia.
  - apply Forall_app. split; [done|]. apply Forall_cons. split; [done | constructor].
Qed.

Lemma handle_store_sound e r negs :
  (∀ id s, negs !! id = Some s → session_sound s) →
  ∀ id s, (handle e r negs).1.2 !! id = Some s → session_sound s.
Proof.
  intros Hok. destruct r as [j | id0]; cbn [handle].
  - destruct (negotiate_inv e j negs)
      as [(msg & code & _ & ->) | (d & u & id0 & s0 & _ & _ & Hu & Hmsg & Hid & Hq & ->)];
      [done|].
    cbv zeta. intros id s.
    assert (Hs0 : session_sound s0).
    { destruct Hid as [(_ & _ & ->) | (_ & _ & Hs0)];
        [apply session_sound_new | by eapply Hok]. }
    case_match; cbn [fst snd]; (destruct (decide (id0 = id)) as [<- | Hne];
      [rewrite lookup_insert_eq; intros [= <-]; by apply session_sound_add
      | rewrite lookup_insert_ne by done; apply Hok]).
  - unfold get_negotiation. intros id s. repeat case_match; cbn [fst snd]; apply Hok.
Qed.

Lemma counters_sound negs id s :
  reachable negs → negs !! id = Some s → session_sound s.
Proof.
  intros Hr. revert id s. induction Hr as [| e r negs _ IH].
  - intros id s Hs. by rewrite lookup_empty in Hs.
  - by apply handle_store_sound.
Qed.

(** X1. In every dictionary the service can reach, the counter of each
    speaker is the number of that speaker's messages in the transcript, and
    each stored message has one of the two speakers and a text that is not
    falsy. *)
Theorem counters_count_speakers negs id s :
  reachable negs → negs !! id = Some s → session_sound s.
Proof. apply counters_sound. Qed.

Lemma counters_count_speakers_witness :
  session_sound {| messages := [{| speaker := user1; message_text := PStr (lit "offer A") |}];
                   user1_count := 1; user2_count := 0; total_count := 1 |}.
Proof.
  apply (counters_count_speakers
           (handle (world (lit "id-1") (Raise syntax_error))
                   (Post (post_body None user1 (lit "offer A"))) ∅).1.2
           (lit "id-1")).
  - apply reachable_step, reachable_start.
  - apply lookup_insert_eq.
Defined.

Lemma negotiate_error_codes e j negs :
  status (negotiate e j negs).1.1 = 200%Z ∨ status (negotiate e j negs).1.1 = 400%Z
  ∨ status (negotiate e j negs).1.1 = 404%Z ∨ status (negotiate e j negs).1.1 = 500%Z.
Proof.
  unfold negotiate, add_and_reply, open_negotiation.
  repeat case_match; simplify_eq; cbn [fst snd status error ok]; auto.
Qed.

(** X2. A POST is answered 200, 400, 404 or 500.  When the answer is not
    200 it is an object with the single field [error], the dictionary of
    negotiations is left as it was and the completion service is not called;
    when it is 200, exactly one message was appended to one session, which
    is new or was there, every other session is untouched, and the answer
    names that session. *)
Theorem post_answers_and_effects e j negs :
  (status (negotiate e j negs).1.1 = 200%Z ∨ status (negotiate e j negs).1.1 = 400%Z
   ∨ status (negotiate e j negs).1.1 = 404%Z ∨ status (negotiate e j negs).1.1 = 500%Z)
  ∧ (status (negotiate e j negs).1.1 ≠ 200%Z →
       (negotiate e j negs).1.2 = negs ∧ (negotiate e j negs).2 = []
       ∧ ∃ msg, body (negotiate e j negs).1.1 = PDict [(k_error, PStr msg)])
  ∧ (status (negotiate e j negs).1.1 = 200%Z →
       ∃ id s m,
         (negs !! id = Some s ∨ (id = uuid4 e ∧ s = new_session))
         ∧ message_ok m
         ∧ (negotiate e j negs).1.2
           = <[id := add_message (speaker m) (message_text m) s]> negs
         ∧ messages (add_message (speaker m) (message_text m) s) = messages s ++ [m]
         ∧ field (lit "negotiation_id") (body (negotiate e j negs).1.1) = PStr id).
Proof.
  split; [apply negotiate_error_codes|].
  destruct (negotiate_inv e j negs)
    as [(msg & code & Hc & ->) | (d & u & id & s & _ & _ & Hu & Hmsg & Hid & Hq & ->)];
    cbv zeta.
  - split; [intros _; by eauto | done].
  - split.
    + intros Hs. exfalso. apply Hs. by case_match.
    + intros _. exists id, s, {| speaker := u; message_text := field (lit "message") (PDict d) |}.
      repeat split; try done.
      * destruct Hid as [(_ & -> & ->) | (_ & _ & Hs)]; [by right | by left].
      * by case_match.
      * by case_match.
Qed.

Lemma ten_messages_five_each negs id s :
  reachable negs → negs !! id = Some s → total_count s = 10%Z →
  length (messages s) = 10%nat
  ∧ count_speaker user1 (messages s) = 5%Z ∧ count_speaker user2 (messages s) = 5%Z.
Proof.
  intros Hr Hs Htot.
  destruct (reachable_store_ok negs Hr id s Hs) as (Hlen & Ht & H1 & H2).
  destruct (counters_sound negs id s Hr Hs) as (Hc1 & Hc2 & _).
  rewrite <- Hc1, <- Hc2. repeat split; lia.
Qed.

(** X3. From a dictionary the service can reach, a request calls the
    completion service at most once, and only with the transcript of a
    session that holds ten messages, five of each speaker; a POST that calls
    it is answered "completed". *)
Theorem service_sees_only_full_transcripts negs e r p :
  reachable negs → p ∈ (handle e r negs).2 →
  ∃ id s, (handle e r negs).1.2 !! id = Some s
          ∧ (handle e r negs).2 = [build_payload e (messages s)]
          ∧ length (messages s) = 10%nat
          ∧ count_speaker user1 (messages s) = 5%Z
          ∧ count_speaker user2 (messages s) = 5%Z
          ∧ (∀ j, r = Post j →
               field (lit "status") (body (handle e r negs).1.1) = PStr (lit "completed")).
Proof.
  intros Hr Hp.
  assert (Hr' : reachable (handle e r negs).1.2) by (by apply reachable_step).
  assert (Hgoal : ∃ id s, (handle e r negs).1.2 !! id = Some s
                          ∧ total_count s = 10%Z
                          ∧ (handle e r negs).2 = [build_payload e (messages s)]
                          ∧ (∀ j, r = Post j →
                               field (lit "status") (body (handle e r negs).1.1)
                               = PStr (lit "completed"))).
  { destruct r as [j | id]; cbn [handle] in Hp |- *.
    - destruct (negotiate_inv e j negs)
        as [(msg & code & _ & Heq) | (d & u & id & s & _ & _ & Hu & Hmsg & Hid & Hq & Heq)];
        rewrite Heq in Hp |- *; [by apply elem_of_nil in Hp|].
      cbv zeta in Hp |- *.
      destruct (total_count (add_message u (field (lit "message") (PDict d)) s) =? 10)%Z
        eqn:Htot; cbn [fst snd] in Hp |- *; [| by apply elem_of_nil in Hp].
      eexists id, _. rewrite lookup_insert_eq. split; [done|].
      split; [by apply Z.eqb_eq|]. split; [done|]. intros _ _. apply status_completed.
    - unfold get_negotiation in Hp |- *.
      destruct (negs !! id) as [s|] eqn:Hs; [| by apply elem_of_nil in Hp].
      destruct (total_count s =? 10)%Z eqn:Htot; cbn [fst snd] in Hp |- *;
        [| by apply elem_of_nil in Hp].
      exists id, s. split; [done|]. split; [by apply Z.eqb_eq|]. split; [done|].
      intros j Hj. discriminate Hj. }
  destruct Hgoal as (id & s & Hs & Htot & Hcalls & Hst).
  destruct (ten_messages_five_each _ id s Hr' Hs Htot) as (? & ? & ?).
  exists id, s. repeat split; done.
Qed.

(** The tenth message of the example run. *)
Lemma service_sees_only_full_transcripts_witness :
  ∃ id s,
    (handle (world (lit "id-2") (Raise connection_error))
            (Post (post_body (Some (lit "id-1")) user2 (lit "b5")))
            (final (take 9 ten_messages) ∅)).1.2 !! id = Some s
    ∧ length (messages s) = 10%nat.
Proof.
  edestruct (service_sees_only_full_transcripts
               (final (take 9 ten_messages) ∅)
               (world (lit "id-2") (Raise connection_error))
               (Post (post_body (Some (lit "id-1")) user2 (lit "b5"))))
    as (id & s & Hs & _ & Hlen & _).
  - unfold final.
    assert (Hrun : ∀ rs negs, reachable negs → reachable (serve rs negs).2).
    { induction rs as [| [e r] rs IH]; intros negs Hn; [done|].
      cbn [serve]. pose proof (reachable_step e r negs Hn) as Hstep.
      destruct (handle e r negs) as [[resp negs1] calls]. cbn [fst snd] in Hstep.
      specialize (IH negs1 Hstep). by destruct (serve rs negs1). }
    apply Hrun, reachable_start.
  - vm_compute. left.
  - by exists id, s.
Defined.

Lemma serve_reachable rs negs : reachable negs → reachable (final rs negs).
Proof.
  revert negs; induction rs as [| [e r] rs IH]; intros negs Hn; [done|].
  rewrite final_cons. by apply IH, reachable_step.
Qed.

(** X4. A read of a session of a dictionary the service can reach is
    answered 200 and leaves the dictionary as it was.  It shows as many
    messages as were sent, in order, the number of messages of each speaker,
    and [10 - sent] messages remaining, which is never negative; the status
    is "completed" exactly when ten messages were sent, and only then does
    the answer hold a verdict. *)
Theorem read_shows_the_session negs e id s :
  reachable negs → negs !! id = Some s →
  status (get_negotiation e id negs).1.1 = 200%Z
  ∧ (get_negotiation e id negs).1.2 = negs
  ∧ field (lit "messages") (body (get_negotiation e id negs).1.1)
    = PList (map message_dict (messages s))
  ∧ field (lit "messages_sent") (body (get_negotiation e id negs).1.1)
    = PInt (Z.of_nat (length (messages s)))
  ∧ field (lit "user1_messages") (body (get_negotiation e id negs).1.1)
    = PInt (count_speaker user1 (messages s))
  ∧ field (lit "user2_messages") (body (get_negotiation e id negs).1.1)
    = PInt (count_speaker user2 (messages s))
  ∧ field (lit "messages_remaining") (body (get_negotiation e id negs).1.1)
    = PInt (10 - Z.of_nat (length (messages s)))
  ∧ (length (messages s) <= 10)%nat
  ∧ field (lit "status") (body (get_negotiation e id negs).1.1)
    = PStr (if decide (length (messages s) = 10%nat) then lit "completed"
            else lit "in_progress")
  ∧ (is_Some (dict_get (lit "verdict")
                (match body (get_negotiation e id negs).1.1 with
                 | PDict d => d | _ => [] end))
     ↔ length (messages s) = 10%nat).
Proof.
  intros Hr Hs.
  destruct (reachable_store_ok negs Hr id s Hs) as (Hlen & Htot & H1 & H2).
  destruct (counters_sound negs id s Hr Hs) as (Hc1 & Hc2 & _).
  assert (Ht : total_count s = Z.of_nat (length (messages s))) by lia.
  unfold get_negotiation. rewrite Hs.
  destruct (total_count s =? 10)%Z eqn:H10.
  - apply Z.eqb_eq in H10.
    assert (Hl : length (messages s) = 10%nat) by lia.
    destruct (generate_verdict e (messages s)) as [v calls].
    cbn [fst snd body status ok]. rewrite Hl, decide_True by done.
    rewrite Ht, Hc1, Hc2, Hl.
    repeat split; try done; try lia.
  - apply Z.eqb_neq in H10.
    assert (Hl : length (messages s) ≠ 10%nat) by lia.
    cbn [fst snd body status ok]. rewrite decide_False by done.
    rewrite Ht, Hc1, Hc2.
    replace (Z.of_nat (length (messages s)) <? 10)%Z with true
      by (symmetry; apply Z.ltb_lt; lia).
    replace (0 `max` (10 - Z.of_nat (length (messages s))))%Z
      with (10 - Z.of_nat (length (messages s)))%Z by lia.
    repeat split; try done; try lia. intros [v Hv]. discriminate Hv.
Qed.

(** The completed session of the example run, read. *)
Lemma read_shows_the_session_witness :
  ∃ s, final ten_messages ∅ !! lit "id-1" = Some s
       ∧ field (lit "messages_remaining")
           (body (get_negotiation (world (lit "id-2") (Raise connection_error))
                    (lit "id-1") (final ten_messages ∅)).1.1)
         = PInt (10 - Z.of_nat (length (messages s))).
Proof.
  assert (Hs : is_Some (final ten_messages ∅ !! lit "id-1")) by (vm_compute; eauto).
  destruct Hs as [s Hs]. exists s. split; [done|].
  apply (read_shows_the_session (final ten_messages ∅)
           (world (lit "id-2") (Raise connection_error)) (lit "id-1") s).
  - apply serve_reachable, reachable_start.
  - exact Hs.
Defined.

Lemma handle_keeps_unknown e r negs id :
  negs !! id = None → uuid4 e ≠ id → (handle e r negs).1.2 !! id = None.
Proof.
  intros Hid Hne.
  destruct (handle_store e r negs)
    as [-> | (id' & s & u & msg & Hs & _ & _ & ->)]; [done|].
  rewrite lookup_insert_ne; [done|].
  destruct Hs as [Hs | [-> _]]; congruence.
Qed.

Lemma field_body_of id spk msg :
  field (lit "negotiation_id") (body_of id spk msg) = id
  ∧ field (lit "speaker") (body_of id spk msg) = spk
  ∧ field (lit "message") (body_of id spk msg) = msg.
Proof. done. Qed.

Lemma negotiate_body_of e id u msg negs :
  u = user1 ∨ u = user2 → truthy msg = true →
  negotiate e (Ok (body_of id (PStr u) msg)) negs
  = match open_negotiation e id negs with
    | Raise ex => (error (exn_str ex) 500, negs, [])
    | Ok (inr resp) => (resp, negs, [])
    | Ok (inl (id', negs1)) => add_and_reply e (PStr u) msg id' negs1
    end.
Proof.
  intros Hu Hmsg. unfold body_of.
  rewrite (negotiate_valid _ _ _ u); [done | done | done | done].
Qed.

(** X5. Only the ids that [uuid4] drew are keys of the dictionary: after
    any run in which no request drew [id], a read of [id] is answered 404
    "Negotiation not found", and a POST that names [id], with a valid speaker
    and message, is answered 404 "Negotiation with ID <id> not found"; both
    leave the dictionary as it was and create no session. *)
Theorem undrawn_id_is_not_found rs id :
  (∀ e r, (e, r) ∈ rs → uuid4 e ≠ id) →
  final rs ∅ !! id = None
  ∧ (∀ e, get_negotiation e id (final rs ∅)
          = (error (lit "Negotiation not found") 404, final rs ∅, []))
  ∧ (∀ e u msg, id ≠ [] → u = user1 ∨ u = user2 → truthy msg = true →
       negotiate e (Ok (body_of (PStr id) (PStr u) msg)) (final rs ∅)
       = (error (lit "Negotiation with ID " ++ id ++ lit " not found") 404,
          final rs ∅, [])).
Proof.
  intros Hrs.
  assert (Hnone : ∀ negs, negs !! id = None → final rs negs !! id = None).
  { clear -Hrs. induction rs as [| [e r] rs IH]; intros negs Hn; [done|].
    rewrite final_cons. apply IH.
    - intros e' r' Hin. apply (Hrs e' r'). by right.
    - apply handle_keeps_unknown; [done|]. apply (Hrs e r). by left. }
  specialize (Hnone ∅ (lookup_empty _)). split; [done | split].
  - intros e. unfold get_negotiation. by rewrite Hnone.
  - intros e u msg Hne Hu Hmsg. rewrite negotiate_body_of by done.
    unfold open_negotiation. replace (truthy (PStr id)) with true by (by destruct id).
    cbn [negb hashable]. by rewrite Hnone.
Qed.

Lemma undrawn_id_is_not_found_witness :
  get_negotiation (world (lit "id-2") (Raise connection_error)) (lit "id-9")
    (final ten_messages ∅)
  = (error (lit "Negotiation not found") 404, final ten_messages ∅, []).
Proof.
  refine (proj1 (proj2 (undrawn_id_is_not_found ten_messages (lit "id-9") _)) _).
  intros e r Hin.
  assert (HF : Forall (λ er, uuid4 er.1 ≠ lit "id-9") ten_messages).
  { unfold ten_messages.
    repeat (apply Forall_cons; split; [discriminate|]). apply Forall_nil_2. }
  rewrite Forall_forall in HF. apply (HF (e, r) Hin).
Defined.

Lemma handle_grows e r negs id s :
  negs !! uuid4 e = None → negs !! id = Some s →
  ∃ s', (handle e r negs).1.2 !! id = Some s' ∧ messages s `prefix_of` messages s'.
Proof.
  intros Hf Hs.
  destruct (handle_store e r negs) as [-> | (id' & s0 & u & msg & Hs0 & _ & _ & ->)];
    [by exists s|].
  destruct (decide (id' = id)) as [-> | Hne]; [| rewrite lookup_insert_ne by done; by exists s].
  rewrite lookup_insert_eq. eexists; split; [done|].
  destruct Hs0 as [Hs0 | [-> _]]; [| congruence].
  assert (s0 = s) as -> by congruence. cbn [add_message messages]. by apply prefix_app_r.
Qed.

(** X6. No request removes a session or changes a message that is stored:
    along a run in which [uuid4] never draws an id in use, a session that is
    there stays, and its transcript afterwards starts with the transcript it
    had. *)
Theorem transcripts_only_grow rs negs id s :
  fresh_ids rs negs → negs !! id = Some s →
  ∃ s', final rs negs !! id = Some s' ∧ messages s `prefix_of` messages s'.
Proof.
  revert negs s; induction rs as [| [e r] rs IH]; intros negs s Hf Hs; [by exists s|].
  destruct Hf as [Hfresh Hf]. rewrite final_cons.
  destruct (handle_grows e r negs id s Hfresh Hs) as (s1 & Hs1 & Hp1).
  destruct (IH _ s1 Hf Hs1) as (s' & Hs' & Hp). exists s'. split; [done|]. by etrans.
Qed.

Lemma transcripts_only_grow_witness :
  ∃ s', final [following user2 (lit "b1")] (<[lit "id-1" := session_with 1 0]> ∅)
          !! lit "id-1" = Some s'
        ∧ messages (session_with 1 0) `prefix_of` messages s'.
Proof.
  apply (transcripts_only_grow [following user2 (lit "b1")]
           (<[lit "id-1" := session_with 1 0]> ∅) (lit "id-1") (session_with 1 0)).
  - vm_compute. repeat split.
  - apply lookup_insert_eq.
Defined.

Lemma count_of_sound negs id s u :
  reachable negs → negs !! id = Some s → u = user1 ∨ u = user2 →
  count_of u s = count_speaker u (messages s).
Proof.
  intros Hr Hs Hu. destruct (counters_sound negs id s Hr Hs) as (H1 & H2 & _).
  by destruct Hu as [-> | ->].
Qed.

Lemma negotiate_existing e id u msg negs s :
  negs !! id = Some s → id ≠ [] → u = user1 ∨ u = user2 → truthy msg = true →
  negotiate e (Ok (body_of (PStr id) (PStr u) msg)) negs
  = add_and_reply e (PStr u) msg id negs.
Proof.
  intros Hs Hne Hu Hmsg. rewrite negotiate_body_of by done.
  by rewrite (open_existing _ _ _ _ Hne Hs).
Qed.

Lemma accepted_status (e : env) (u : str) (msg : pyval) (id : str) (negs : store) (s : session) :
  status (let s' := add_message u msg s in
          if (total_count s' =? 10)%Z
          then (completed_reply id (generate_verdict e (messages s')).1,
                <[id := s']> negs, (generate_verdict e (messages s')).2)
          else (in_progress_reply id s', <[id := s']> negs, [])).1.1 = 200%Z
  ∧ (let s' := add_message u msg s in
     if (total_count s' =? 10)%Z
     then (completed_reply id (generate_verdict e (messages s')).1,
           <[id := s']> negs, (generate_verdict e (messages s')).2)
     else (in_progress_reply id s', <[id := s']> negs, [])).1.2
    = <[id := add_message u msg s]> negs.
Proof. cbv zeta. by case_match. Qed.

(** X7. Whether a message to an existing session is stored depends only
    on how many messages its speaker has in the transcript: with fewer than
    five it is stored and answered 200, whoever spoke last and however many
    the other speaker sent; with five it is answered 400 with the quota
    error of that speaker and nothing changes. *)
Theorem accepted_iff_below_quota negs e id s u msg :
  reachable negs → negs !! id = Some s → id ≠ [] →
  u = user1 ∨ u = user2 → truthy msg = true →
  (count_speaker u (messages s) <= 5)%Z
  ∧ (status (negotiate e (Ok (body_of (PStr id) (PStr u) msg)) negs).1.1 = 200%Z
     ↔ (count_speaker u (messages s) < 5)%Z)
  ∧ ((count_speaker u (messages s) < 5)%Z →
       (negotiate e (Ok (body_of (PStr id) (PStr u) msg)) negs).1.2
       = <[id := add_message u msg s]> negs)
  ∧ (count_speaker u (messages s) = 5%Z →
       negotiate e (Ok (body_of (PStr id) (PStr u) msg)) negs = (quota_error u, negs, [])).
Proof.
  intros Hr Hs Hne Hu Hmsg.
  rewrite (negotiate_existing _ _ _ _ _ s) by done.
  rewrite <- (count_of_sound negs id s u Hr Hs Hu).
  assert (Hle : (count_of u s <= 5)%Z).
  { destruct (reachable_store_ok negs Hr id s Hs) as (_ & _ & H1 & H2).
    destruct Hu as [-> | ->]; [change (count_of user1 s) with (user1_count s)
                              | change (count_of user2 s) with (user2_count s)]; lia. }
  split; [done|].
  destruct (Z_lt_le_dec (count_of u s) 5) as [Hq | Hq].
  - rewrite (add_and_reply_accept _ _ _ _ _ s) by done.
    destruct (accepted_status e u msg id negs s) as [Hst Hstore].
    split; [done | split; [done | lia]].
  - rewrite (add_and_reply_reject _ _ _ _ _ s) by done.
    split; [| split; [lia | done]].
    split; [| lia]. unfold quota_error, error. cbn [fst status]. discriminate.
Qed.

Lemma accepted_iff_below_quota_witness :
  negotiate (world (lit "id-2") (Raise connection_error))
    (Ok (body_of (PStr (lit "id-1")) (PStr user2) (PStr (lit "b6")))) (final ten_messages ∅)
  = (quota_error user2, final ten_messages ∅, []).
Proof.
  assert (Hs : is_Some (final ten_messages ∅ !! lit "id-1")) by (vm_compute; eauto).
  destruct Hs as [s Hs].
  refine (proj2 (proj2 (proj2 (accepted_iff_below_quota (final ten_messages ∅)
            (world (lit "id-2") (Raise connection_error)) (lit "id-1") s user2
            (PStr (lit "b6")) _ Hs _ _ _))) _).
  - apply serve_reachable, reachable_start.
  - discriminate.
  - by right.
  - reflexivity.
  - revert Hs. vm_compute. intros [= <-]. reflexivity.
Defined.

Lemma serve_cons e r rs negs :
  (serve ((e, r) :: rs) negs).1
  = (handle e r negs).1.1 :: (serve rs (handle e r negs).1.2).1.
Proof.
  cbn [serve]. destruct (handle e r negs) as [[resp negs1] calls]. cbn [fst snd].
  by destruct (serve rs negs1).
Qed.

Lemma count_speaker_app_list u a b :
  count_speaker u (a ++ b) = (count_speaker u a + count_speaker u b)%Z.
Proof. unfold count_speaker. rewrite filter_app, length_app. lia. Qed.

Lemma count_speaker_cons u m msgs :
  count_speaker u (m :: msgs)
  = ((if decide (speaker m = u) then 1 else 0) + count_speaker u msgs)%Z.
Proof.
  unfold count_speaker. rewrite filter_cons. case_decide; cbn [length]; lia.
Qed.

Lemma count_speaker_nonneg u msgs : (0 <= count_speaker u msgs)%Z.
Proof. unfold count_speaker. lia. Qed.

(** One message sent to a session whose speaker is below the quota. *)
Lemma post_to_step negs e id s m :
  reachable negs → negs !! id = Some s → id ≠ [] → message_ok m →
  (count_speaker (speaker m) (messages s) < 5)%Z →
  ∃ s1, (handle e (post_to id m) negs).1.2 = <[id := s1]> negs
        ∧ messages s1 = messages s ++ [m]
        ∧ status (handle e (post_to id m) negs).1.1 = 200%Z
        ∧ (length (messages s1) = 10%nat →
             field (lit "status") (body (handle e (post_to id m) negs).1.1)
             = PStr (lit "completed")).
Proof.
  intros Hr Hs Hne [Hu Hmsg] Hq. destruct m as [u msg]. cbn [speaker message_text] in *.
  unfold post_to. cbn [handle speaker message_text].
  rewrite (negotiate_existing _ _ _ _ _ s) by done.
  rewrite <- (count_of_sound negs id s u Hr Hs Hu) in Hq.
  rewrite (add_and_reply_accept _ _ _ _ _ s) by done.
  destruct (reachable_store_ok negs Hr id s Hs) as (Hlen & Htot & _).
  exists (add_message u msg s). cbv zeta.
  destruct (total_count (add_message u msg s) =? 10)%Z eqn:H10; cbn [fst snd].
  - repeat split; done.
  - repeat split; try done. intros Hl. exfalso. apply Z.eqb_neq in H10. apply H10.
    cbn [add_message total_count messages] in Hl |- *. rewrite length_app in Hl.
    cbn [length] in Hl. lia.
Qed.

(** X8. Messages sent to a session one after the other, in any order of
    the two speakers, are all stored, in the order sent, as long as neither
    speaker goes beyond five messages in all: every answer is 200, the
    transcript afterwards is the old one followed by the messages sent, no
    other session is touched, and when the transcript reaches ten messages
    the last answer is "completed". *)
Theorem posts_append_in_order negs id s ems :
  reachable negs → negs !! id = Some s → id ≠ [] →
  Forall message_ok ems.*2 →
  (count_speaker user1 (messages s ++ ems.*2) <= 5)%Z →
  (count_speaker user2 (messages s ++ ems.*2) <= 5)%Z →
  Forall (λ resp, status resp = 200%Z) (serve (posts_to id ems) negs).1
  ∧ (∃ s', final (posts_to id ems) negs !! id = Some s'
           ∧ messages s' = messages s ++ ems.*2)
  ∧ (∀ id', id' ≠ id → final (posts_to id ems) negs !! id' = negs !! id')
  ∧ (ems ≠ [] → length (messages s ++ ems.*2) = 10%nat →
       ∃ resp, last (serve (posts_to id ems) negs).1 = Some resp
               ∧ field (lit "status") (body resp) = PStr (lit "completed")).
Proof.
  intros Hr Hs Hne. revert negs s Hr Hs.
  induction ems as [| [e m] ems IH]; intros negs s Hr Hs Hok H1 H2.
  - cbn. rewrite app_nil_r. split; [constructor|]. split; [by exists s|]. split; done.
  - rewrite fmap_cons in Hok, H1, H2. cbn [snd] in Hok, H1, H2.
    apply Forall_cons in Hok as [Hm Hok].
    assert (Hq : (count_speaker (speaker m) (messages s) < 5)%Z).
    { rewrite count_speaker_app_list, count_speaker_cons in H1, H2.
      pose proof (count_speaker_nonneg user1 ems.*2).
      pose proof (count_speaker_nonneg user2 ems.*2).
      destruct Hm as [[Hu | Hu] _]; rewrite Hu in *;
        rewrite decide_True in * by done; lia. }
    destruct (post_to_step negs e id s m Hr Hs Hne Hm Hq) as (s1 & Hstore & Hmsgs & Hst & Hdone).
    assert (Hr1 : reachable (handle e (post_to id m) negs).1.2) by (by apply reachable_step).
    assert (Hs1 : (handle e (post_to id m) negs).1.2 !! id = Some s1)
      by (rewrite Hstore; apply lookup_insert_eq).
    assert (Happ : messages s1 ++ ems.*2 = messages s ++ m :: ems.*2)
      by (by rewrite Hmsgs, <- app_assoc).
    destruct (IH _ s1 Hr1 Hs1 Hok) as (Hall & (s' & Hs' & Hmsgs') & Hother & Hlast);
      [by rewrite Happ | by rewrite Happ |].
    change (posts_to id ((e, m) :: ems)) with ((e, post_to id m) :: posts_to id ems).
    rewrite serve_cons, final_cons.
    split; [by apply Forall_cons|]. split; [exists s'; by rewrite Hs', Hmsgs', Happ|].
    split.
    + intros id' Hid'. rewrite Hother by done. rewrite Hstore.
      by rewrite lookup_insert_ne.
    + intros _ Hlen. rewrite last_cons. destruct ems as [| em ems'].
      * cbn. eexists; split; [done|]. apply Hdone. rewrite Hmsgs. exact Hlen.
      * destruct Hlast as (resp & -> & Hresp); [done | by rewrite Happ |]. by exists resp.
Qed.

(** Two messages of user2 sent to the session of one first message. *)
Lemma posts_append_in_order_witness :
  ∃ resp,
    last (serve (posts_to (lit "id-1")
                   (replicate 2 (world (lit "id-2") (Raise connection_error),
                                 {| speaker := user2; message_text := PStr (lit "b") |})))
            (final [opening] ∅)).1 = Some resp
    ∧ status resp = 200%Z.
Proof.
  assert (Hs : is_Some (final [opening] ∅ !! lit "id-1")) by (vm_compute; eauto).
  destruct Hs as [s Hs].
  destruct (posts_append_in_order (final [opening] ∅) (lit "id-1") s
              (replicate 2 (world (lit "id-2") (Raise connection_error),
                            {| speaker := user2; message_text := PStr (lit "b") |})))
    as (Hall & _).
  - apply serve_reachable, reachable_start.
  - exact Hs.
  - discriminate.
  - repeat (apply Forall_cons; split; [split; [by right | done]|]). apply Forall_nil_2.
  - revert Hs. vm_compute. intros [= <-]. vm_compute. discriminate.
  - revert Hs. vm_compute. intros [= <-]. vm_compute. discriminate.
  - rewrite Forall_forall in Hall.
    destruct (last _) as [resp|] eqn:Hl; [| by vm_compute in Hl].
    exists resp. split; [done|]. apply Hall. by eapply last_Some_elem_of.
Defined.

(** X9. A [negotiation_id] that is not falsy and is not a string names no
    session: a POST with a valid speaker and message is answered 500 with
    "unhashable type: ..." when the id is or holds a list, a set or a
    dictionary, and 404 otherwise; either way nothing is stored and the
    completion service is not called. *)
Theorem non_string_id_stores_nothing e id u msg negs :
  truthy id = true → (∀ s, id ≠ PStr s) → u = user1 ∨ u = user2 → truthy msg = true →
  negotiate e (Ok (body_of id (PStr u) msg)) negs
  = (if hashable id
     then error (lit "Negotiation with ID " ++ format e id ++ lit " not found") 404
     else error (lit "unhashable type: '" ++ type_name (unhashable_part id) ++ lit "'") 500,
     negs, []).
Proof.
  intros Hid Hstr Hu Hmsg. rewrite negotiate_body_of by done.
  unfold open_negotiation. rewrite Hid. cbn [negb].
  destruct (hashable id) eqn:Hh; cbn [negb]; [| done].
  destruct id; try done. by destruct (Hstr s).
Qed.

(** The id is the list [[1]]. *)
Lemma non_string_id_stores_nothing_witness :
  negotiate (world (lit "id-2") (Raise connection_error))
    (Ok (body_of (PList [PInt 1]) (PStr user1) (PStr (lit "offer A")))) ∅
  = (error (lit "unhashable type: 'list'") 500, ∅, []).
Proof.
  apply (non_string_id_stores_nothing (world (lit "id-2") (Raise connection_error))
           (PList [PInt 1]) user1 (PStr (lit "offer A")) ∅).
  - reflexivity.
  - discriminate.
  - by left.
  - reflexivity.
Defined.

Lemma get_negotiation_messages e id negs s :
  negs !! id = Some s →
  status (get_negotiation e id negs).1.1 = 200%Z
  ∧ field (lit "messages") (body (get_negotiation e id negs).1.1)
    = PList (map message_dict (messages s)).
Proof.
  intros Hs. unfold get_negotiation. rewrite Hs.
  destruct (total_count s =? 10)%Z; [destruct (generate_verdict e (messages s))|]; done.
Qed.

(** X10. A message that was stored is read back: after a POST answered 200,
    a read of the id in the answer is answered 200 and shows the messages
    the session had before, none for a new session, followed by the speaker
    and the message of the request. *)
Theorem stored_message_is_read_back e e' j negs :
  status (negotiate e j negs).1.1 = 200%Z →
  ∃ id d u prev,
    j = Ok (PDict d)
    ∧ field (lit "speaker") (PDict d) = PStr u
    ∧ field (lit "negotiation_id") (body (negotiate e j negs).1.1) = PStr id
    ∧ ((truthy (field (lit "negotiation_id") (PDict d)) = false
        ∧ id = uuid4 e ∧ prev = [])
       ∨ (field (lit "negotiation_id") (PDict d) = PStr id
          ∧ ∃ s, negs !! id = Some s ∧ prev = messages s))
    ∧ status (get_negotiation e' id (negotiate e j negs).1.2).1.1 = 200%Z
    ∧ field (lit "messages") (body (get_negotiation e' id (negotiate e j negs).1.2).1.1)
      = PList (map message_dict prev
               ++ [PDict [(lit "speaker", PStr u);
                          (lit "message", field (lit "message") (PDict d))]]).
Proof.
  intros Hst.
  destruct (negotiate_inv e j negs)
    as [(msg & code & Hc & Heq) | (d & u & id & s & -> & Hspk & Hu & Hmsg & Hid & Hq & Heq)];
    rewrite Heq in Hst |- *; [done|].
  exists id, d, u, (messages s).
  assert (Hbody : field (lit "negotiation_id")
            (body (let s' := add_message u (field (lit "message") (PDict d)) s in
                   if (total_count s' =? 10)%Z
                   then (completed_reply id (generate_verdict e (messages s')).1,
                         <[id := s']> negs, (generate_verdict e (messages s')).2)
                   else (in_progress_reply id s', <[id := s']> negs, [])).1.1) = PStr id)
    by (cbv zeta; by case_match).
  destruct (accepted_status e u (field (lit "message") (PDict d)) id negs s) as [_ ->].
  destruct (get_negotiation_messages e' id
              (<[id := add_message u (field (lit "message") (PDict d)) s]> negs)
              (add_message u (field (lit "message") (PDict d)) s)) as [Hget Hmsgs];
    [apply lookup_insert_eq|].
  repeat split; try done.
  - destruct Hid as [(Hf & -> & ->) | (Hn & _ & Hs)]; [by left | right; eauto].
  - rewrite Hmsgs. cbn [add_message messages]. by rewrite map_app.
Qed.

Lemma stored_message_is_read_back_witness :
  ∃ id,
    field (lit "negotiation_id")
      (body (negotiate (world (lit "id-1") (Raise connection_error))
               (post_body None user1 (lit "offer A")) ∅).1.1) = PStr id
    ∧ status (get_negotiation (world (lit "id-2") (Raise connection_error)) id
                (negotiate (world (lit "id-1") (Raise connection_error))
                   (post_body None user1 (lit "offer A")) ∅).1.2).1.1 = 200%Z.
Proof.
  destruct (stored_message_is_read_back (world (lit "id-1") (Raise connection_error))
              (world (lit "id-2") (Raise connection_error))
              (post_body None user1 (lit "offer A")) ∅)
    as (id & d & u & prev & _ & _ & Hid & _ & Hst & _).
  - reflexivity.
  - by exists id.
Defined.

(** X11. The numbers in the answer to a stored message are those of the
    transcript: in a dictionary the service can reach, a POST answered 200
    leaves a session of one to ten messages under the id it answers; below
    ten the answer is "in_progress" with the length of the transcript, the
    messages of each speaker in it, and ten minus the length as
    [messages_remaining]; at ten it is "completed" with the verdict on
    that transcript. *)
Theorem post_reply_counts negs e j :
  reachable negs → status (negotiate e j negs).1.1 = 200%Z →
  ∃ id s',
    (negotiate e j negs).1.2 !! id = Some s'
    ∧ (1 <= length (messages s') <= 10)%nat
    ∧ (if decide (length (messages s') = 10%nat)
       then (negotiate e j negs).1.1
            = completed_reply id (generate_verdict e (messages s')).1
       else (negotiate e j negs).1.1 = progress_of id (messages s')).
Proof.
  intros Hr Hst.
  assert (Hr' : reachable (handle e (Post j) negs).1.2) by (by apply reachable_step).
  cbn [handle] in Hr'.
  destruct (negotiate_inv e j negs)
    as [(msg & code & Hc & Heq) | (d & u & id & s & -> & Hspk & Hu & Hmsg & Hid & Hq & Heq)];
    rewrite Heq in Hst, Hr' |- *; [done|].
  set (s' := add_message u (field (lit "message") (PDict d)) s) in *.
  cbv zeta in Hr' |- *.
  assert (Hstore : (if (total_count s' =? 10)%Z
                    then (completed_reply id (generate_verdict e (messages s')).1,
                          <[id := s']> negs, (generate_verdict e (messages s')).2)
                    else (in_progress_reply id s', <[id := s']> negs, [])).1.2
                   = <[id := s']> negs) by (by case_match).
  rewrite Hstore in Hr' |- *.
  assert (Hs' : (<[id := s']> negs) !! id = Some s') by apply lookup_insert_eq.
  destruct (reachable_store_ok _ Hr' id s' Hs') as (Hlen & Htot & H1 & H2).
  destruct (counters_sound _ id s' Hr' Hs') as (Hc1 & Hc2 & _).
  exists id, s'. split; [done|].
  assert (Hpos : (1 <= length (messages s'))%nat).
  { subst s'. cbn [add_message messages]. rewrite length_app. cbn [length]. lia. }
  split; [lia|].
  destruct (total_count s' =? 10)%Z eqn:H10; cbn [fst].
  - apply Z.eqb_eq in H10. rewrite decide_True by lia. done.
  - apply Z.eqb_neq in H10. rewrite decide_False by lia.
    unfold in_progress_reply, progress_of. rewrite <- Hc1, <- Hc2.
    by replace (Z.of_nat (length (messages s'))) with (total_count s') by lia.
Qed.

Lemma post_reply_counts_witness :
  ∃ id s',
    (negotiate (world (lit "id-1") (Raise connection_error))
       (post_body None user1 (lit "offer A")) ∅).1.2 !! id = Some s'
    ∧ (1 <= length (messages s') <= 10)%nat.
Proof.
  destruct (post_reply_counts ∅ (world (lit "id-1") (Raise connection_error))
              (post_body None user1 (lit "offer A")))
    as (id & s' & Hs' & Hlen & _).
  - apply reachable_start.
  - reflexivity.
  - by exists id, s'.
Defined.

(** * Further properties of the extraction *)

Lemma sub_fences_drop k s : sub_fences k s = sub_fences 0 (drop k s).
Proof.
  revert k; induction s as [|c r IH]; intros [|k]; try done.
  cbn [sub_fences drop]. apply IH.
Qed.

Lemma sub_fences_sublist k s : sub_fences k s `sublist_of` s.
Proof.
  revert k; induction s as [|c r IH]; intros k; [by destruct k|].
  destruct k as [|k]; cbn [sub_fences]; [| by apply sublist_cons].
  repeat case_match; [by apply sublist_cons | by apply sublist_cons | by apply sublist_skip].
Qed.

(** A character kept in front of a text that starts no fence starts none
    in front of the cleaned text. *)
Lemma head_starts_no_fence c r :
  starts_with fence (c :: r) = false → starts_with fence (c :: sub_fences 0 r) = false.
Proof.
  change fence with [c_backtick; c_backtick; c_backtick]. cbn [starts_with].
  destruct (c_backtick =? c) eqn:Hc; [| done]. cbn [andb].
  destruct r as [|c2 r2]; [done|]. cbn [starts_with].
  destruct (c_backtick =? c2) eqn:Hc2; cbn [andb].
  - intros H3.
    assert (H2 : starts_with fence (c2 :: r2) = false).
    { change fence with [c_backtick; c_backtick; c_backtick]. cbn [starts_with].
      rewrite Hc2. cbn [andb]. destruct r2 as [|c3 r3]; [done|].
      cbn [starts_with] in H3 |- *. destruct (c_backtick =? c3); done. }
    rewrite sub_fences_no_fence by done. cbn [starts_with]. rewrite Hc2. cbn [andb].
    destruct r2 as [|c3 r3]; [done|]. cbn [starts_with] in H3.
    destruct (c_backtick =? c3) eqn:Hc3; [done|].
    rewrite sub_fences_no_fence.
    + cbn [starts_with]. by rewrite Hc3.
    + change fence with [c_backtick; c_backtick; c_backtick]. cbn [starts_with].
      by rewrite Hc3.
  - intros _. rewrite sub_fences_no_fence.
    + cbn [starts_with]. by rewrite Hc2.
    + change fence with [c_backtick; c_backtick; c_backtick]. cbn [starts_with].
      by rewrite Hc2.
Qed.

Lemma sub_fences_clean_bounded n s :
  (length s <= n)%nat → contains fence (sub_fences 0 s) = false.
Proof.
  revert s; induction n as [|n IH]; intros s Hn.
  { destruct s; [done | cbn in Hn; lia]. }
  destruct s as [|c r]; [done|]. cbn [length] in Hn.
  cbn [sub_fences].
  destruct (starts_with (lit "```json") (c :: r)).
  { rewrite sub_fences_drop. apply IH. rewrite length_drop. lia. }
  destruct (starts_with (lit "```") (c :: r)) eqn:H3.
  { rewrite sub_fences_drop. apply IH. rewrite length_drop. lia. }
  cbn [contains]. rewrite (head_starts_no_fence c r H3). apply IH. lia.
Qed.

Lemma sub_fences_fixed s : contains fence s = false → sub_fences 0 s = s.
Proof.
  induction s as [|c r IH]; [done|]. intros [Hhd Hr]%contains_cons.
  rewrite sub_fences_no_fence by done. by rewrite IH.
Qed.

(** X12. The text [re.sub] leaves holds no code fence: it is the text with
    some characters taken out, three backticks in a row do not occur in it,
    not even made of backticks that stood on the two sides of a fence, and a
    text without a fence is left as it is; so a second pass changes
    nothing. *)
Theorem fences_are_all_removed s :
  contains fence (sub_fences 0 s) = false
  ∧ sub_fences 0 s `sublist_of` s
  ∧ (contains fence s = false → sub_fences 0 s = s)
  ∧ sub_fences 0 (sub_fences 0 s) = sub_fences 0 s.
Proof.
  assert (H : contains fence (sub_fences 0 s) = false)
    by (by apply (sub_fences_clean_bounded (length s))).
  split; [done|]. split; [apply sub_fences_sublist|].
  split; [apply sub_fences_fixed | by apply sub_fences_fixed].
Qed.

Lemma from_first_lbrace_Some s t :
  from_first_lbrace s = Some t →
  ∃ pre r, s = pre ++ (c_lbrace :: r) ∧ (c_lbrace ∉ pre) ∧ t = (c_lbrace :: r).
Proof.
  induction s as [|c s IH]; [done|]. cbn [from_first_lbrace].
  destruct (c =? c_lbrace) eqn:Hc.
  - apply N.eqb_eq in Hc as ->. intros [= <-]. exists [], s. split; [done|].
    split; [apply not_elem_of_nil | done].
  - apply N.eqb_neq in Hc. intros (pre & r & -> & Hpre & ->)%IH.
    exists (c :: pre), r. split; [done|]. split; [| done].
    apply not_elem_of_cons. split; [congruence | done].
Qed.

Lemma upto_last_rbrace_Some s p :
  upto_last_rbrace s = Some p →
  ∃ mid post, s = mid ++ (c_rbrace :: post) ∧ (c_rbrace ∉ post) ∧ p = mid ++ [c_rbrace].
Proof.
  revert p; induction s as [|c s IH]; intros p; [done|]. cbn [upto_last_rbrace].
  destruct (upto_last_rbrace s) as [q|] eqn:Hq.
  - intros [= <-]. destruct (IH q eq_refl) as (mid & post & -> & Hpost & ->).
    by exists (c :: mid), post.
  - destruct (c =? c_rbrace) eqn:Hc; [| done].
    apply N.eqb_eq in Hc as ->. intros [= <-]. exists [], s. split; [done|].
    split; [| done]. intros Hin. clear IH.
    induction s as [|x s IHs]; [by apply elem_of_nil in Hin|].
    cbn [upto_last_rbrace] in Hq. destruct (upto_last_rbrace s); [done|].
    destruct (x =? c_rbrace) eqn:Hx; [done|]. apply N.eqb_neq in Hx.
    apply elem_of_cons in Hin as [Heq | Hin]; [congruence | by apply IHs].
Qed.

Lemma upto_last_rbrace_is_Some a b : is_Some (upto_last_rbrace (a ++ c_rbrace :: b)).
Proof.
  induction a as [|c a IH]; cbn [app upto_last_rbrace].
  - destruct (upto_last_rbrace b); [by eexists|]. by eexists.
  - destruct IH as [p ->]. by eexists.
Qed.

Lemma search_braces_is_Some pre mid post :
  is_Some (search_braces (pre ++ c_lbrace :: mid ++ c_rbrace :: post)).
Proof.
  induction pre as [|c pre IH].
  - unfold search_braces. cbn [app from_first_lbrace].
    change (c_lbrace =? c_lbrace) with true. cbv iota.
    destruct (upto_last_rbrace_is_Some mid post) as [p ->]. by eexists.
  - unfold search_braces in IH |- *. cbn [app from_first_lbrace].
    destruct (c =? c_lbrace) eqn:Hc; [| done].
    rewrite app_comm_cons, app_assoc.
    destruct (upto_last_rbrace_is_Some (pre ++ c_lbrace :: mid) post) as [p ->].
    by eexists.
Qed.

(** X13. The span [re.search] finds runs from the first opening brace of
    the text to the last closing brace after it: [m] is found exactly when
    the text is [pre ++ m ++ post] where [m] opens with a brace and ends with
    one, [pre] has no opening brace and [post] no closing brace.  A span is
    found exactly when some opening brace is followed, anywhere later, by a
    closing brace. *)
Theorem brace_span_is_first_to_last s :
  (∀ m, search_braces s = Some m
        ↔ ∃ pre mid post, s = pre ++ (c_lbrace :: (mid ++ (c_rbrace :: post)))
                          ∧ (c_lbrace ∉ pre) ∧ (c_rbrace ∉ post)
                          ∧ m = c_lbrace :: (mid ++ [c_rbrace]))
  ∧ (is_Some (search_braces s)
     ↔ ∃ pre mid post, s = pre ++ (c_lbrace :: (mid ++ (c_rbrace :: post)))).
Proof.
  assert (Hspec : ∀ m, search_braces s = Some m
        ↔ ∃ pre mid post, s = pre ++ (c_lbrace :: (mid ++ (c_rbrace :: post)))
                          ∧ (c_lbrace ∉ pre) ∧ (c_rbrace ∉ post)
                          ∧ m = c_lbrace :: (mid ++ [c_rbrace])).
  { intros m. split.
    - unfold search_braces. destruct (from_first_lbrace s) as [t|] eqn:Ht; [| done].
      destruct (from_first_lbrace_Some s t Ht) as (pre & r & -> & Hpre & ->).
      destruct (upto_last_rbrace r) as [p|] eqn:Hp; [| done].
      destruct (upto_last_rbrace_Some r p Hp) as (mid & post & -> & Hpost & ->).
      intros [= <-]. by exists pre, mid, post.
    - intros (pre & mid & post & -> & Hpre & Hpost & ->). unfold search_braces.
      rewrite from_first_lbrace_app by done. by rewrite upto_last_rbrace_app. }
  split; [done|]. split.
  - intros [m (pre & mid & post & -> & _)%Hspec]. by exists pre, mid, post.
  - intros (pre & mid & post & ->). apply search_braces_is_Some.
Qed.

Lemma scan_pairs_dict fuel :
  ∀ depth s acc v rest, scan_pairs fuel depth s acc = Ok (v, rest) → ∃ d, v = PDict d.
Proof.
  induction fuel as [|f IH]; intros depth s acc v rest H; [done|].
  cbn [scan_pairs] in H. destruct s as [|c r]; [done|].
  repeat first [progress open_bind | case_match]; simplify_eq; eauto.
Qed.

(** A text that opens with a brace decodes to a dictionary or not at all. *)
Lemma json_loads_object depth r v :
  json_loads depth (c_lbrace :: r) = Ok v → ∃ d, v = PDict d.
Proof.
  unfold json_loads. change (starts_with [65279] (c_lbrace :: r)) with false. cbv iota.
  change (skip_ws (c_lbrace :: r)) with (c_lbrace :: r).
  intros ([v' rest] & Hscan & Hrest)%bind_ok.
  assert (v' = v) as -> by (destruct (skip_ws rest); simplify_eq; done).
  cbn [scan_once] in Hscan.
  change (c_lbrace =? c_quote) with false in Hscan.
  change (c_lbrace =? c_lbrace) with true in Hscan. cbv iota in Hscan.
  destruct depth as [|depth]; [done|].
  destruct (skip_ws r) as [|c1 r1]; [done|].
  destruct (c1 =? c_rbrace); [simplify_eq; eauto|].
  by eapply scan_pairs_dict.
Qed.

Lemma search_braces_head s m : search_braces s = Some m → ∃ p, m = c_lbrace :: p.
Proof.
  unfold search_braces. destruct (from_first_lbrace s) as [t|] eqn:Ht; [| done].
  destruct (from_first_lbrace_Some s t Ht) as (pre & r & _ & _ & ->).
  destruct (upto_last_rbrace r); [| done]. intros [= <-]. eauto.
Qed.

Lemma clean_newlines_lbrace p :
  clean_newlines (c_lbrace :: p) = c_lbrace :: clean_newlines p.
Proof.
  unfold clean_newlines. cbn [map]. change (c_lbrace =? c_lf) with false. cbv iota.
  by rewrite filter_cons_True.
Qed.

Lemma generate_verdict_content e msgs r content :
  requests_post e (build_payload e msgs) = Ok r → status_code r = 200%Z →
  response_content r = Ok content →
  (generate_verdict e msgs).1 = try_except (parse_verdict e content) verdict_error.
Proof.
  intros Hpost Hst Hc. unfold generate_verdict. cbn [fst]. rewrite Hpost. run_bind.
  rewrite Hst. change (200 =? 200)%Z with true. cbv iota. by rewrite Hc.
Qed.

Lemma load_verdict_dict e content d :
  extract_json e content = PDict d → load_verdict e content = Ok (PDict d).
Proof. intros H. unfold load_verdict. by rewrite H. Qed.

Lemma parse_verdict_dict e content d :
  extract_json e content = PDict d →
  parse_verdict e content
  = Ok (match dict_get k_summary d, dict_get k_compromise d with
        | Some s, Some c => PDict [(k_compromise, c); (k_summary, s)]
        | _, _ => format_fallback_verdict
        end).
Proof.
  intros H%load_verdict_dict.
  destruct (dict_get k_summary d) as [s|] eqn:Hs;
    [destruct (dict_get k_compromise d) as [c|] eqn:Hc|].
  - by apply (parse_verdict_fields _ _ d).
  - apply (parse_verdict_fallback _ _ _ H). by rewrite lacks_fields_dict, Hs, Hc.
  - apply (parse_verdict_fallback _ _ _ H). by rewrite lacks_fields_dict, Hs.
Qed.

(** X14. When the cleaned answer of the model has a brace span, that span
    alone decides the verdict: [ast.literal_eval] is not asked, no exception
    leaves the inner block and its handler is not entered.  If [json.loads]
    accepts the span it gives a dictionary, and the verdict holds its two
    fields, or the fixed fallback when one is missing; if it rejects the
    span, the verdict is the one of the extraction error. *)
Theorem brace_span_decides e msgs r text m :
  requests_post e (build_payload e msgs) = Ok r → status_code r = 200%Z →
  response_content r = Ok (PStr text) →
  search_braces (strip (sub_fences 0 text)) = Some m →
  (∃ d, json_loads (json_depth e) (clean_newlines m) = Ok (PDict d)
        ∧ extract_json e (PStr text) = PDict d
        ∧ (generate_verdict e msgs).1
          = match dict_get k_summary d, dict_get k_compromise d with
            | Some s, Some c => PDict [(k_compromise, c); (k_summary, s)]
            | _, _ => format_fallback_verdict
            end)
  ∨ (∃ ex, json_loads (json_depth e) (clean_newlines m) = Raise ex
           ∧ extract_json e (PStr text) = extract_error
           ∧ (generate_verdict e msgs).1 = extract_error_verdict).
Proof.
  intros Hpost Hst Hc Hm. rewrite (generate_verdict_content _ _ _ _ Hpost Hst Hc).
  destruct (json_loads (json_depth e) (clean_newlines m)) as [v | ex] eqn:Hj.
  - left. destruct (search_braces_head _ _ Hm) as [p ->].
    rewrite clean_newlines_lbrace in Hj.
    destruct (json_loads_object _ _ _ Hj) as [d ->]. exists d. split; [done|].
    assert (He : extract_json e (PStr text) = PDict d).
    { unfold extract_json. run_bind. rewrite Hm, clean_newlines_lbrace. by rewrite Hj. }
    split; [done|]. by rewrite (parse_verdict_dict _ _ _ He).
  - right. exists ex. split; [done|].
    rewrite extract_json_error, parse_verdict_extract_error by (left; eauto). done.
Qed.

(** The model answers [{x}]. *)
Lemma brace_span_decides_witness :
  (generate_verdict (world (lit "id-1") (Ok (completion (PStr (lit "{x}"))))) []).1
  = extract_error_verdict.
Proof.
  destruct (brace_span_decides (world (lit "id-1") (Ok (completion (PStr (lit "{x}")))))
              [] (completion (PStr (lit "{x}"))) (lit "{x}") (lit "{x}"))
    as [(d & Hd & _) | (ex & _ & _ & H)].
  - reflexivity.
  - reflexivity.
  - reflexivity.
  - reflexivity.
  - vm_compute in Hd. discriminate Hd.
  - exact H.
Defined.

(** X15. An answer whose content is not a string, such as [null], is not
    searched at all: the type error of [re.sub] is caught in [extract_json],
    and the verdict is the one of the extraction error. *)
Theorem non_string_answer_verdict e msgs r content :
  requests_post e (build_payload e msgs) = Ok r → status_code r = 200%Z →
  response_content r = Ok content → (∀ s, content ≠ PStr s) →
  extract_json e content = extract_error
  ∧ (generate_verdict e msgs).1 = extract_error_verdict.
Proof.
  intros Hpost Hst Hc Hstr.
  assert (He : extract_json e content = extract_error).
  { destruct content; try done. by destruct (Hstr s). }
  split; [done|]. rewrite (generate_verdict_content _ _ _ _ Hpost Hst Hc).
  by rewrite (parse_verdict_dict _ _ _ He).
Qed.

(** The content of the answer is [null]. *)
Lemma non_string_answer_verdict_witness :
  (generate_verdict (world (lit "id-1") (Ok (completion PNone))) []).1
  = extract_error_verdict.
Proof.
  refine (proj2 (non_string_answer_verdict (world (lit "id-1") (Ok (completion PNone)))
                   [] (completion PNone) PNone _ _ _ _)); try reflexivity.
  discriminate.
Defined.

(** What [extract_json] returns: a dictionary, or what [ast.literal_eval]
    made of a text without a brace span. *)
Lemma extract_json_cases e content :
  (∃ d, extract_json e content = PDict d)
  ∨ (∃ text v, content = PStr text
       ∧ search_braces (strip (sub_fences 0 text)) = None
       ∧ literal_eval e (strip (sub_fences 0 text)) = Ok v
       ∧ extract_json e content = v).
Proof.
  destruct content as [| | | | | | text | | | | |]; try (left; by eexists).
  unfold extract_json. run_bind.
  destruct (search_braces (strip (sub_fences 0 text))) as [m|] eqn:Hm.
  - left. destruct (search_braces_head _ _ Hm) as [p ->].
    rewrite clean_newlines_lbrace.
    destruct (json_loads (json_depth e) (c_lbrace :: clean_newlines p)) as [v | ex] eqn:Hj;
      [| by eexists].
    destruct (json_loads_object _ _ _ Hj) as [d ->]. by exists d.
  - destruct (literal_eval e (strip (sub_fences 0 text))) as [v | ex] eqn:Hl;
      [| left; by eexists].
    right. by exists text, v.
Qed.

Lemma lacks_fields_raises v ex :
  lacks_fields v = Raise ex → is_json_decode_error ex = false.
Proof.
  unfold lacks_fields. destruct v; cbn [contains_str]; intros H;
    repeat case_match; simplify_eq; try done;
    match goal with
    | H : _ <$> _ = Raise _ |- _ => cbn in H; repeat case_match; simplify_eq; done
    end.
Qed.

Lemma parse_verdict_loaded e content v :
  load_verdict e content = Ok v → parse_verdict e content = Ok not_json_verdict →
  ∃ d, v = PDict d
       ∧ dict_get k_summary d = Some (PStr (lit "Error parsing AI response."))
       ∧ dict_get k_compromise d
         = Some (PStr (lit "The negotiation was processed, but a structured verdict could not be generated. Please try again.")).
Proof.
  intros Hl. destruct (lacks_fields v) as [[|] | ex] eqn:Hm.
  - rewrite (parse_verdict_fallback _ _ _ Hl Hm). intros H. vm_compute in H. discriminate H.
  - destruct v as [| | | | | | | | | | | d];
      try (unfold parse_verdict; cbv zeta; rewrite Hl; run_bind; rewrite Hm; run_bind;
           cbn [get_method]; run_bind; discriminate).
    rewrite lacks_fields_dict in Hm.
    destruct (dict_get k_summary d) as [s|] eqn:Hs; [| done].
    destruct (dict_get k_compromise d) as [c|] eqn:Hc; [| done].
    rewrite (parse_verdict_fields _ _ _ _ _ Hl Hs Hc). unfold not_json_verdict.
    intros [= -> ->]. by exists d.
  - unfold parse_verdict. cbv zeta. rewrite Hl. run_bind. rewrite Hm. run_bind.
    by rewrite (lacks_fields_raises _ _ Hm).
Qed.

(** X16. The inner block fails only on what [ast.literal_eval] returned.
    If an exception leaves it, the answer was a string without a brace span
    that [ast.literal_eval] accepted, as something other than a dictionary.
    If it gives the verdict "Error parsing AI response.", then
    [ast.literal_eval] returned a string that [json.loads] rejected, or else
    the dictionary decoded carries that very text in its two fields. *)
Theorem inner_failures_need_literal_eval e content :
  (∀ ex, parse_verdict e content = Raise ex →
     ∃ text v, content = PStr text
       ∧ search_braces (strip (sub_fences 0 text)) = None
       ∧ literal_eval e (strip (sub_fences 0 text)) = Ok v
       ∧ ∀ d, v ≠ PDict d)
  ∧ (parse_verdict e content = Ok not_json_verdict →
     (∃ text s ex, content = PStr text
        ∧ search_braces (strip (sub_fences 0 text)) = None
        ∧ literal_eval e (strip (sub_fences 0 text)) = Ok (PStr s)
        ∧ json_loads (json_depth e) s = Raise ex
        ∧ is_json_decode_error ex = true)
     ∨ (∃ d, load_verdict e content = Ok (PDict d)
          ∧ dict_get k_summary d = Some (PStr (lit "Error parsing AI response."))
          ∧ dict_get k_compromise d
            = Some (PStr (lit "The negotiation was processed, but a structured verdict could not be generated. Please try again.")))).
Proof.
  split.
  - intros ex Hp.
    destruct (extract_json_cases e content) as [[d Hd] | (text & v & -> & Hm & Hl & He)].
    + by rewrite (parse_verdict_dict _ _ _ Hd) in Hp.
    + exists text, v. repeat split; try done. intros d ->.
      by rewrite (parse_verdict_dict _ _ _ He) in Hp.
  - intros Hp. destruct (load_verdict e content) as [v | ex] eqn:Hload.
    + right. destruct (parse_verdict_loaded _ _ _ Hload Hp) as (d & -> & Hs & Hc).
      by exists d.
    + left. destruct (extract_json_cases e content)
        as [[d Hd] | (text & v & -> & Hm & Hl & He)].
      { by rewrite (load_verdict_dict _ _ _ Hd) in Hload. }
      unfold load_verdict in Hload. rewrite He in Hload.
      destruct v as [| | | | | | s | | | | |]; try done.
      exists text, s, ex. repeat split; try done.
      unfold parse_verdict in Hp. cbv zeta in Hp. unfold load_verdict in Hp.
      rewrite He, Hload in Hp. run_bind. cbn [mbind result_bind] in Hp.
      by destruct (is_json_decode_error ex).
Qed.

(** * Further properties of the call to the completion service *)

(** X17. A reply with status 200 that is not shaped as a completion ends in
    the outer handler, and the verdict names the exception: when the body is
    an object without [choices], the compromise is "An error occurred:
    'choices'", the key in quotes as [str] of a [KeyError] has it; when
    [choices] is an empty list, it is "An error occurred: list index out of
    range"; when the body is not JSON, it is the message of the exception of
    [response.json()].  The summary is "Error generating verdict." each
    time. *)
Theorem reply_without_completion e msgs r :
  requests_post e (build_payload e msgs) = Ok r → status_code r = 200%Z →
  (∀ d, json r = Ok (PDict d) → dict_get (lit "choices") d = None →
        (generate_verdict e msgs).1
        = PDict [(k_compromise, PStr (lit "An error occurred: 'choices'"));
                 (k_summary, PStr (lit "Error generating verdict."))])
  ∧ (∀ d, json r = Ok (PDict d) → dict_get (lit "choices") d = Some (PList []) →
        (generate_verdict e msgs).1
        = PDict [(k_compromise, PStr (lit "An error occurred: list index out of range"));
                 (k_summary, PStr (lit "Error generating verdict."))])
  ∧ (∀ ex, json r = Raise ex →
        (generate_verdict e msgs).1
        = PDict [(k_compromise, PStr (lit "An error occurred: " ++ exn_str ex));
                 (k_summary, PStr (lit "Error generating verdict."))]).
Proof.
  intros Hpost Hst.
  assert (Hv : (generate_verdict e msgs).1
               = try_except (content ← response_content r; parse_verdict e content)
                   verdict_error).
  { unfold generate_verdict. cbn [fst]. rewrite Hpost. run_bind. rewrite Hst. done. }
  rewrite Hv. unfold response_content. split; [| split].
  - intros d Hj Hd. rewrite Hj. run_bind. cbn [getitem_str]. by rewrite Hd.
  - intros d Hj Hd. rewrite Hj. run_bind. cbn [getitem_str]. by rewrite Hd.
  - intros ex Hj. by rewrite Hj.
Qed.

(** The service answers 200 with the object [{"error": "rate limited"}]. *)
Lemma reply_without_completion_witness :
  (generate_verdict
     (world (lit "id-1")
        (Ok {| status_code := 200; text := [];
               json := Ok (PDict [(lit "error", PStr (lit "rate limited"))]) |})) []).1
  = PDict [(k_compromise, PStr (lit "An error occurred: 'choices'"));
           (k_summary, PStr (lit "Error generating verdict."))].
Proof.
  refine (proj1 (reply_without_completion
                   (world (lit "id-1")
                      (Ok {| status_code := 200; text := [];
                             json := Ok (PDict [(lit "error", PStr (lit "rate limited"))]) |}))
                   [] _ _ _) _ _ _); reflexivity.
Defined.

(** * Further properties of the routes: progress *)

Lemma post_accepted negs e id s u msg :
  reachable negs → negs !! id = Some s → id ≠ [] →
  u = user1 ∨ u = user2 → truthy msg = true →
  (count_of u s < 5)%Z →
  status (negotiate e (Ok (body_of (PStr id) (PStr u) msg)) negs).1.1 = 200%Z.
Proof.
  intros Hr Hs Hne Hu Hmsg Hq.
  rewrite (negotiate_existing _ _ _ _ _ s) by done.
  rewrite (add_and_reply_accept _ _ _ _ _ s) by done.
  by destruct (accepted_status e u msg id negs s).
Qed.

Lemma post_refused negs e id s u msg :
  negs !! id = Some s → id ≠ [] → u = user1 ∨ u = user2 → truthy msg = true →
  (5 <= count_of u s)%Z →
  negotiate e (Ok (body_of (PStr id) (PStr u) msg)) negs = (quota_error u, negs, []).
Proof.
  intros Hs Hne Hu Hmsg Hq.
  rewrite (negotiate_existing _ _ _ _ _ s) by done.
  by rewrite (add_and_reply_reject _ _ _ _ _ s).
Qed.

(** X18. A session is never stuck before its tenth message: as long as its
    transcript holds fewer than ten messages, one of the two speakers at
    least is below the quota, and any message of that speaker that is not
    falsy is stored and answered 200.  Once it holds ten, every message is
    answered 400 with the quota error of its speaker, and nothing changes. *)
Theorem incomplete_session_accepts_someone negs id s :
  reachable negs → negs !! id = Some s → id ≠ [] →
  ((length (messages s) < 10)%nat →
     ∃ u, (u = user1 ∨ u = user2)
          ∧ ∀ e msg, truthy msg = true →
              status (negotiate e (Ok (body_of (PStr id) (PStr u) msg)) negs).1.1 = 200%Z)
  ∧ (length (messages s) = 10%nat →
     ∀ e u msg, u = user1 ∨ u = user2 → truthy msg = true →
       negotiate e (Ok (body_of (PStr id) (PStr u) msg)) negs = (quota_error u, negs, [])).
Proof.
  intros Hr Hs Hne.
  destruct (reachable_store_ok negs Hr id s Hs) as (Hlen & Htot & H1 & H2).
  split.
  - intros Hlt. destruct (Z_lt_le_dec (user1_count s) 5) as [Hq | Hq].
    + exists user1. split; [by left|]. intros e msg Hmsg.
      apply (post_accepted negs e id s); try done. by left.
    + exists user2. split; [by right|]. intros e msg Hmsg.
      apply (post_accepted negs e id s); try done; [by right|].
      change (count_of user2 s) with (user2_count s). lia.
  - intros H10 e u msg Hu Hmsg. apply (post_refused negs e id s); try done.
    destruct Hu as [-> | ->];
      [change (count_of user1 s) with (user1_count s)
      | change (count_of user2 s) with (user2_count s)]; lia.
Qed.

(** The session of the example run after its first nine messages. *)
Lemma incomplete_session_accepts_someone_witness :
  ∃ u, (u = user1 ∨ u = user2)
       ∧ status (negotiate (world (lit "id-2") (Raise connection_error))
                   (Ok (body_of (PStr (lit "id-1")) (PStr u) (PStr (lit "last"))))
                   (final (take 9 ten_messages) ∅)).1.1 = 200%Z.
Proof.
  assert (Hs : is_Some (final (take 9 ten_messages) ∅ !! lit "id-1"))
    by (vm_compute; eauto).
  destruct Hs as [s Hs].
  destruct (incomplete_session_accepts_someone (final (take 9 ten_messages) ∅)
              (lit "id-1") s) as [Hfree _].
  - apply serve_reachable, reachable_start.
  - exact Hs.
  - discriminate.
  - destruct Hfree as (u & Hu & Hok).
    + revert Hs. vm_compute. intros [= <-]. vm_compute. lia.
    + exists u. split; [done|]. by apply Hok.
Defined.
